(** * PBP inactivity checker and history importer: model and properties

    A shallow embedding of [scripts/checker.py] and
    [scripts/import_history.py].  Python dictionaries become finite maps
    ([gmap]), JSON objects with a fixed schema become records whose
    optional keys are [option] fields, unbounded Python integers are [Z],
    texts are strings of UTF-8 bytes, instants are microseconds since the
    epoch, and the outside world (the
    wall clock and the Telegram transport) is an abstract state threaded
    through the calls that touch it. *)

From Stdlib Require Import ZArith QArith Ascii String List.
From stdpp Require Import base option list gmap strings pretty sorting.

Close Scope Q_scope.
Open Scope Z_scope.

(** ** Python primitives shared by both scripts *)

(** The newline character and the one-character string ["\n"]. *)
Definition nl_char : ascii := "010"%char.
Definition nl : string := String nl_char "".

(** [str(n)] for a Python integer: its decimal numeral. *)
Definition str (n : Z) : string := pretty n.


(** Strings are UTF-8 texts, byte by byte.  White space as [str.isspace()]
    and [str.strip()] see it, in its UTF-8 encoding.  One byte: tab, line feed, vertical tab, form feed, carriage return, the
    separators 28-31 and the space.  Two bytes: U+0085 and U+00A0.  Three
    bytes: U+1680, U+2000 to U+200A, U+2028, U+2029, U+202F, U+205F and
    U+3000. *)
Definition space1 (a : ascii) : bool :=
  let x := N_of_ascii a in
  ((9 <=? x) && (x <=? 13) || (28 <=? x) && (x <=? 32))%N.

Definition space2 (a b : ascii) : bool :=
  let x := N_of_ascii a in
  let y := N_of_ascii b in
  ((x =? 194) && ((y =? 133) || (y =? 160)))%N.

Definition space3 (a b c : ascii) : bool :=
  let x := N_of_ascii a in
  let y := N_of_ascii b in
  let z := N_of_ascii c in
  ((x =? 225) && (y =? 154) && (z =? 128)
   || (x =? 226) && (y =? 128)
      && ((128 <=? z) && (z <=? 138) || (z =? 168) || (z =? 169) || (z =? 175))
   || (x =? 226) && (y =? 129) && (z =? 159)
   || (x =? 227) && (y =? 128) && (z =? 128))%N.

(** [s.isspace()] for a text of one character. *)
Definition py_isspace (s : string) : bool :=
  match s with
  | String a "" => space1 a
  | String a (String b "") => space2 a b
  | String a (String b (String c "")) => space3 a b c
  | _ => false
  end.

(** An ASCII character that is not white space. *)
Definition plain (c : ascii) : bool :=
  negb (space1 c) && (N_of_ascii c <? 128)%N.

(** [c.isalnum()] on the ASCII range: digits and letters.  Letters and
    digits outside ASCII, which Python also accepts, are not recognised: the
    one function that uses the test, [sanitize_dirname], is the code's on
    campaign names in ASCII. *)
Definition py_isalnum (c : ascii) : bool :=
  let n := N_of_ascii c in
  ((48 <=? n) && (n <=? 57) || (65 <=? n) && (n <=? 90)
   || (97 <=? n) && (n <=? 122))%N.

(** The text after one leading white-space character, if there is one. *)
Definition after_space (s : string) : option string :=
  match s with
  | String a s1 =>
    if space1 a then Some s1 else
    match s1 with
    | String b s2 =>
      if space2 a b then Some s2 else
      match s2 with
      | String c s3 => if space3 a b c then Some s3 else None
      | _ => None
      end
    | _ => None
    end
  | _ => None
  end.

(** [s.lstrip()], [s.rstrip()] and [s.strip()].  From the front the
    white-space characters are removed one at a time; from the back a
    character goes when it is a white-space character and everything after
    it has gone. *)
Fixpoint lstrip (s : string) : string :=
  match s with
  | EmptyString => ""
  | String a s1 =>
    if space1 a then lstrip s1 else
    match s1 with
    | String b s2 =>
      if space2 a b then lstrip s2 else
      match s2 with
      | String c s3 => if space3 a b c then lstrip s3 else s
      | _ => s
      end
    | _ => s
    end
  end.

Fixpoint rstrip (s : string) : string :=
  match s with
  | EmptyString => ""
  | String a s' =>
    let kept := String a (rstrip s') in
    if py_isspace kept then "" else kept
  end.

Definition strip (s : string) : string := rstrip (lstrip s).

(** [s.split(sep)] for a one-character separator: always at least one
    piece, and one more piece than there are separators. *)
Fixpoint split (sep : ascii) (s : string) : list string :=
  match s with
  | EmptyString => [""]
  | String c s' =>
    if Ascii.eqb c sep then "" :: split sep s'
    else match split sep s' with
         | piece :: rest => String c piece :: rest
         | [] => [String c ""]
         end
  end.

(** [sep.join(pieces)]. *)
Fixpoint join (sep : string) (pieces : list string) : string :=
  match pieces with
  | [] => ""
  | [x] => x
  | x :: rest => x +:+ sep +:+ join sep rest
  end.

(** [s[:n]] and [s[n:]]. *)
Fixpoint take_str (n : nat) (s : string) : string :=
  match n, s with
  | S n', String c s' => String c (take_str n' s')
  | _, _ => ""
  end.

Fixpoint drop_str (n : nat) (s : string) : string :=
  match n, s with
  | S n', String _ s' => drop_str n' s'
  | _, _ => s
  end.

(** [s.replace(a, b)] for single characters, and [s.replace(pat, "")]:
    occurrences are removed left to right without overlap. *)
Fixpoint replace_char (a b : ascii) (s : string) : string :=
  match s with
  | EmptyString => ""
  | String c s' =>
    String (if Ascii.eqb c a then b else c) (replace_char a b s')
  end.

Fixpoint remove_all_go (pat : string) (skip : nat) (s : string) : string :=
  match s with
  | EmptyString => ""
  | String c s' =>
    match skip with
    | S k => remove_all_go pat k s'
    | O =>
      if String.prefix pat s
      then remove_all_go pat (String.length pat - 1) s'
      else String c (remove_all_go pat 0 s')
    end
  end.

Definition remove_all (pat s : string) : string :=
  match pat with
  | EmptyString => s
  | _ => remove_all_go pat 0 s
  end.

(** Keep the characters that satisfy a test (a generator expression that
    yields [c] or [""] joined by [""]). *)
Fixpoint filter_chars (keep : ascii → bool) (s : string) : string :=
  match s with
  | EmptyString => ""
  | String c s' =>
    if keep c then String c (filter_chars keep s') else filter_chars keep s'
  end.

(** [''.join(parts)]. *)
Definition concat_str (parts : list string) : string :=
  foldr String.append "" parts.

(** Truthiness of an optional string: absent and [""] are falsy. *)
Definition truthy (s : option string) : bool :=
  match s with
  | Some (String _ _) => true
  | _ => false
  end.

(** [sorted(xs)] on strings (code-point order) and [sorted(d.items())] on a
    dictionary with string keys: keys are distinct, so the values never take
    part in the comparison. *)
Definition sorted (xs : list string) : list string := merge_sort String.le xs.

Definition key_le {A} (x y : string * A) : Prop := String.le x.1 y.1.

#[global] Instance key_le_dec {A} : RelDecision (@key_le A).
Proof. intros x y. unfold key_le. apply _. Defined.

Definition sorted_items {A} (d : gmap string A) : list (string * A) :=
  merge_sort key_le (map_to_list d).

(** [sorted(xs, key=k)] with string keys; Python's sort is stable, and so is
    this insertion sort: an element goes in front of the first one whose key
    is not smaller. *)
Fixpoint insert_by {A} (key : A → string) (x : A) (l : list A) : list A :=
  match l with
  | [] => [x]
  | y :: l' =>
    if String.leb (key x) (key y) then x :: y :: l'
    else y :: insert_by key x l'
  end.

Definition sorted_by {A} (key : A → string) (l : list A) : list A :=
  foldr (insert_by key) [] l.

(** Instants are UTC timestamps with microsecond resolution, as produced by
    [datetime.now(timezone.utc)]; [isoformat]/[fromisoformat] round-trip
    them exactly, so the stored ISO string is identified with the instant. *)
Definition time := Z.

(** The world outside the process: a clock that can be read and a transport
    that may or may not deliver a message. *)
Class Env (W : Type) := {
  utcnow : W → time * W;
  send_message : Z → Z → string → W → bool * W
}.

(** A scripted world for concrete runs: the clock readings and the
    transport results still to come. *)
Record script := Script {
  readings : list time;
  deliveries : list bool
}.

#[export] Instance script_env : Env script := {|
  utcnow w :=
    match readings w with
    | t :: ts => (t, Script ts (deliveries w))
    | [] => (0, w)
    end;
  send_message _ _ _ w :=
    match deliveries w with
    | ok :: oks => (ok, Script (readings w) oks)
    | [] => (false, w)
    end
|}.

(** ** [scripts/checker.py] *)
Module Checker.

(** One entry of [config["topic_pairs"]]. *)
Record topic_pair := TopicPair {
  pbp_topic_id : Z;
  chat_topic_id : Z;
  name : string
}.

Record config := Config {
  group_id : Z;
  alert_after_hours : option Q;
  topic_pairs : list topic_pair
}.

(** A value of [state["topics"]]. *)
Record topic_state := TopicState {
  last_message_time : time;
  last_user : option string;
  campaign_name : option string
}.

(** The persisted document [{"offset", "topics", "last_alerts"}]; the keys
    read with [.get] or tested with [in] may be absent. *)
Record state := State {
  offset : option Z;
  topics : gmap string topic_state;
  last_alerts : option (gmap string time)
}.

(** Telegram Bot API objects, restricted to the keys the checker reads
    (plus the message's own [date], which it does not read). *)
Record user := User {
  is_bot : option bool;
  first_name : option string
}.

Record chat := Chat { id : option Z }.

Record message := Message {
  msg_chat : option chat;
  message_thread_id : option Z;
  from : option user;
  date : option Z
}.

Record update := Update {
  update_id : Z;
  upd_message : option message
}.

(** Truthiness of [update.get("message")]: [None] and the empty object are
    both falsy. *)
Definition msg_truthy (m : option message) : bool :=
  match m with
  | None => false
  | Some (Message None None None None) => false
  | Some _ => true
  end.

(** The dictionary built by the first loop of [process_updates]. *)
Definition pbp_topic_ids (cfg : config) : gmap string string :=
  foldl (λ ids pair, <[str (pbp_topic_id pair) := name pair]> ids) ∅
        (topic_pairs cfg).

(** Body of the [for update in updates] loop.  The accumulator carries the
    local [new_offset], the (mutated) state and the world. *)
Definition track `{Env W} (cfg : config) (ids : gmap string string)
    (acc : Z * state * W) (u : update) : Z * state * W :=
  let '(new_offset, st, w) := acc in
  let new_offset := Z.max new_offset (update_id u + 1) in
  match upd_message u with
  | None => (new_offset, st, w)
  | Some msg =>
    if negb (msg_truthy (Some msg)) then (new_offset, st, w) else
    let chat_id := msg_chat msg ≫= id in
    if negb (bool_decide (chat_id = Some (group_id cfg))) then (new_offset, st, w) else
    match message_thread_id msg with
    | None => (new_offset, st, w)
    | Some thread_id =>
      let thread_id_str := str thread_id in
      match ids !! thread_id_str with
      | None => (new_offset, st, w)
      | Some campaign =>
        let from_user := default (User None None) (from msg) in
        if default false (is_bot from_user) then (new_offset, st, w) else
        let user_name := default "Someone" (first_name from_user) in
        let '(now, w) := utcnow w in
        let record := TopicState now (Some user_name) (Some campaign) in
        (new_offset,
         State (offset st) (<[thread_id_str := record]> (topics st)) (last_alerts st),
         w)
      end
    end
  end.

(** [process_updates(updates, config, state)]: returns the new offset; the
    state is mutated in place, which the model renders by returning it. *)
Definition process_updates `{Env W} (updates : list update) (cfg : config)
    (st : state) (w : W) : Z * state * W :=
  let ids := pbp_topic_ids cfg in
  let new_offset := default 0 (offset st) in
  foldl (track cfg ids) (new_offset, st, w) updates.

(** [timedelta.total_seconds() / 3600] for the span between two instants.
    Python computes the quotient in floating point; the model keeps it as an
    exact rational. *)
Definition hours_between (later earlier : time) : Q :=
  Qdiv (Qmake (later - earlier) 1000000) (inject_Z 3600).

(** [int(x)] on a number: truncation towards zero. *)
Definition py_int (x : Q) : Z := Z.quot (Qnum x) (Zpos (Qden x)).

(** The "Build the message" block of [check_and_alert]. *)
Definition time_str (elapsed_hours : Q) : string :=
  let hours_int := py_int elapsed_hours in
  let days := hours_int `div` 24 in
  let remaining_hours := hours_int `mod` 24 in
  if bool_decide (days > 0)
  then str days +:+ "d " +:+ str remaining_hours +:+ "h"
  else str hours_int +:+ "h".

Definition alert_text (pair_name : string) (elapsed_hours : Q)
    (ts : topic_state) : string :=
  let last_user := default "someone" (last_user ts) in
  "No new posts in " +:+ pair_name +:+ " PBP for " +:+ time_str elapsed_hours
    +:+ "." +:+ nl +:+ "Last post was from " +:+ last_user +:+ ".".

(** Which way one iteration of the [for pair in config["topic_pairs"]] loop
    went: no record for the topic, not silent long enough, alerted recently,
    alert sent, or send failed.  For a send the arguments of [send_message]
    are kept. *)
Inductive outcome :=
  | Untracked
  | Active
  | Cooling
  | Sent (chat thread : Z) (text : string)
  | Failed (chat thread : Z) (text : string).

(** Body of the loop over the topic pairs. *)
Definition check_pair `{Env W} (cfg : config) (alert_hours : Q) (now : time)
    (acc : state * list outcome * W) (pair : topic_pair)
    : state * list outcome * W :=
  let '(st, log, w) := acc in
  let pbp_id_str := str (pbp_topic_id pair) in
  match topics st !! pbp_id_str with
  | None => (st, log ++ [Untracked], w)
  | Some topic_state =>
    let elapsed_hours := hours_between now (last_message_time topic_state) in
    if Qlt_le_dec elapsed_hours alert_hours then (st, log ++ [Active], w) else
    let alerts := default ∅ (last_alerts st) in
    let recently :=
      match alerts !! pbp_id_str with
      | Some last_alert =>
          if Qlt_le_dec (hours_between now last_alert) alert_hours
          then true else false
      | None => false
      end in
    if recently then (st, log ++ [Cooling], w) else
    let text := alert_text (name pair) elapsed_hours topic_state in
    let '(ok, w) := send_message (group_id cfg) (chat_topic_id pair) text w in
    if ok
    then (State (offset st) (topics st) (Some (<[pbp_id_str := now]> alerts)),
          log ++ [Sent (group_id cfg) (chat_topic_id pair) text], w)
    else (st, log ++ [Failed (group_id cfg) (chat_topic_id pair) text], w)
  end.

(** [check_and_alert(config, state)]. *)
Definition check_and_alert `{Env W} (cfg : config) (st : state) (w : W)
    : state * list outcome * W :=
  let alert_hours := default (inject_Z 4) (alert_after_hours cfg) in
  let '(now, w) := utcnow w in
  let st := match last_alerts st with
            | None => State (offset st) (topics st) (Some ∅)
            | Some _ => st
            end in
  foldl (check_pair cfg alert_hours now) (st, [], w) (topic_pairs cfg).

(** The part of [main] between loading and saving the state: the updates
    have been fetched for the stored offset. *)
Definition main_body `{Env W} (cfg : config) (st : state)
    (updates : list update) (w : W) : state * list outcome * W :=
  let '(st, w) :=
    match updates with
    | [] => (st, w)
    | _ =>
      let '(new_offset, st, w) := process_updates updates cfg st w in
      (State (Some new_offset) (topics st) (last_alerts st), w)
    end in
  check_and_alert cfg st w.

End Checker.

(** ** [scripts/import_history.py] *)
Module Importer.

(** An element of a list-valued ["text"] or of ["text_entities"]: a plain
    string, an object with optional ["type"] and ["text"] keys, or any other
    JSON value. *)
Inductive chunk :=
  | ChunkStr (s : string)
  | ChunkDict (type : option string) (text : option string)
  | ChunkOther.

(** The ["text"] key holds a string, a list of chunks, or something else. *)
Inductive text_value :=
  | TextStr (s : string)
  | TextList (chunks : list chunk)
  | TextOther.

(** A record of the export's ["messages"] list, restricted to the keys the
    importer reads; each key may be absent. *)
Record message := Message {
  id : option Z;
  type : option string;
  message_thread_id : option Z;
  reply_to_message_id : option Z;
  action : option string;
  date : option string;
  from : option string;
  from_id : option string;
  text : option text_value;
  text_entities : option (list chunk);
  media_type : option string;
  sticker_emoji : option string;
  photo : option string;
  file : option string
}.

Record export := Export { messages : option (list message) }.

Record topic_pair := TopicPair {
  name : string;
  pbp_topic_ids : option (list Z);
  pair_gm_user_ids : option (list Z)
}.

Record config := Config {
  gm_user_ids : option (list Z);
  topic_pairs : option (list topic_pair)
}.

(** The directory tree under [LOGS_DIR]: directory name to its files, file
    name to content.  Month keys are used as flat file names. *)
Abbreviation dir := (gmap string string).
Abbreviation fs := (gmap string (gmap string string)).

Definition build_thread_map (cfg : config) : gmap Z string :=
  foldl (λ mapping pair,
           foldl (λ mapping tid, <[tid := name pair]> mapping) mapping
                 (default [] (pbp_topic_ids pair)))
        ∅ (default [] (topic_pairs cfg)).

Definition uid_set (uids : list Z) : gset string := list_to_set (str <$> uids).

Definition build_gm_map (cfg : config) : gmap string (gset string) :=
  let global_gms := uid_set (default [] (gm_user_ids cfg)) in
  foldl (λ gm_map pair,
           match pair_gm_user_ids pair with
           | Some uids => <[name pair := uid_set uids]> gm_map
           | None => <[name pair := global_gms]> gm_map
           end)
        ∅ (default [] (topic_pairs cfg)).

Definition sanitize_dirname (name : string) : string :=
  let kept c := py_isalnum c || bool_decide (c ∈ [" "; "-"; "_"]%char) in
  replace_char " " "_" (strip (filter_chars kept name)).

Definition chunk_text (c : chunk) : list string :=
  match c with
  | ChunkStr s => [s]
  | ChunkDict _ t => [default "" t]
  | ChunkOther => []
  end.

Definition entity_text (e : chunk) : list string :=
  match e with
  | ChunkDict _ t => [default "" t]
  | _ => []
  end.

Definition extract_text (msg : message) : string :=
  let raw := default (TextStr "") (text msg) in
  let entities_fallback :=
    match default [] (text_entities msg) with
    | [] => ""
    | entities => strip (concat_str (entities ≫= entity_text))
    end in
  match raw with
  | TextStr s =>
    match strip s with
    | EmptyString => entities_fallback
    | stripped => stripped
    end
  | TextList [] => entities_fallback
  | TextList chunks =>
    match strip (concat_str (chunks ≫= chunk_text)) with
    | EmptyString => entities_fallback
    | result => result
    end
  | TextOther => entities_fallback
  end.

Definition detect_media (msg : message) : option string :=
  let media_type := media_type msg in
  if bool_decide (media_type = Some "animation") then Some "gif"
  else if bool_decide (media_type = Some "video_file") then Some "video"
  else if bool_decide (media_type = Some "voice_message") then Some "voice message"
  else if bool_decide (media_type = Some "video_message") then Some "video note"
  else if bool_decide (media_type = Some "sticker")
  then Some ("sticker:" +:+ default "?" (sticker_emoji msg))
  else if truthy (photo msg) then Some "image"
  else if truthy (file msg) && negb (truthy media_type)
  then Some ("document:" +:+ default "" (last (split "/" (default "" (file msg)))))
  else None.

Definition format_entry (msg : message) (is_gm : bool) : string :=
  let date_str := default "" (date msg) in
  let ts := replace_char "T" " " (take_str 19 date_str) in
  let name := default "Unknown" (from msg) in
  let role_tag := if is_gm then " [GM]" else "" in
  let text := extract_text msg in
  let media := detect_media msg in
  let media_part :=
    match media with
    | Some (String _ _ as media) =>
      if String.prefix "sticker:" media
      then ["*[sticker " +:+ drop_str 8 media +:+ "]*"]
      else if String.prefix "document:" media
      then ["*[" +:+ drop_str 9 media +:+ "]*"]
      else ["*[" +:+ media +:+ "]*"]
    | _ => []
    end in
  let text_part := match text with EmptyString => [] | _ => [text] end in
  let parts := media_part ++ text_part in
  let content := match parts with [] => "*[empty message]*" | _ => join " " parts end in
  "**" +:+ name +:+ "**" +:+ role_tag +:+ " (" +:+ ts +:+ "):" +:+ nl
    +:+ content +:+ nl.

Definition tracker : string := ".imported_ids".

Definition get_imported_ids (files : fs) (campaign_dir : string) : gset string :=
  match files !! campaign_dir ≫= (.!! tracker) with
  | Some content => list_to_set (split nl_char (strip content))
  | None => ∅
  end.

(** Writing a file in a directory; the directory has been created before. *)
Definition write_file (campaign_dir file_name content : string) (files : fs) : fs :=
  <[campaign_dir := <[file_name := content]> (default ∅ (files !! campaign_dir))]> files.

Definition save_imported_ids (files : fs) (campaign_dir : string)
    (ids : gset string) : fs :=
  write_file campaign_dir tracker (join nl (sorted (elements ids)) +:+ nl) files.

(** [campaign_dir.mkdir(parents=True, exist_ok=True)]. *)
Definition mkdir (campaign_dir : string) (files : fs) : fs :=
  match files !! campaign_dir with
  | Some _ => files
  | None => <[campaign_dir := ∅]> files
  end.

(** [thread_id = msg.get("message_thread_id") or msg.get("reply_to_message_id")]:
    a missing or zero thread id falls through to the reply reference. *)
Definition thread_of (msg : message) : option Z :=
  match message_thread_id msg with
  | Some t => if bool_decide (t = 0) then reply_to_message_id msg else Some t
  | None => reply_to_message_id msg
  end.

(** [d.setdefault(k, []).append(x)]. *)
Definition append_at {A} (k : string) (x : A) (d : gmap string (list A))
    : gmap string (list A) :=
  <[k := default [] (d !! k) ++ [x]]> d.

(** The "Filter to PBP topic messages only" loop. *)
Definition classify (thread_map : gmap Z string)
    (pbp_messages : gmap string (list message)) (msg : message)
    : gmap string (list message) :=
  if negb (bool_decide (type msg = Some "message")) then pbp_messages else
  match thread_of msg with
  | None => pbp_messages
  | Some thread_id =>
    match thread_map !! thread_id with
    | None => pbp_messages
    | Some campaign_name =>
      if truthy (action msg) then pbp_messages
      else append_at campaign_name msg pbp_messages
    end
  end.

Definition msg_id (msg : message) : string :=
  match id msg with Some n => str n | None => "" end.

Definition month_of (msg : message) : string := take_str 7 (default "" (date msg)).

(** The "Group by month" loop: skips what is already imported and what has
    no date, and counts the rest. *)
Definition group_step (imported_ids : gset string)
    (acc : gmap string (list message) * nat) (msg : message)
    : gmap string (list message) * nat :=
  let '(by_month, new_count) := acc in
  if bool_decide (msg_id msg ∈ imported_ids) then acc else
  match month_of msg with
  | EmptyString => acc
  | date_str => (append_at date_str msg by_month, S new_count)
  end.

Definition group_by_month (imported_ids : gset string) (msgs : list message)
    : gmap string (list message) * nat :=
  foldl (group_step imported_ids) (∅, O)
        (sorted_by (λ m, default "" (date m)) msgs).

Definition header (campaign_name month_str : string) : string :=
  "# " +:+ campaign_name +:+ " — " +:+ month_str +:+ nl +:+ nl
   +:+ "*PBP transcript archived by PathWarsNudge bot.*" +:+ nl +:+ nl
   +:+ "---" +:+ nl +:+ nl.

Definition is_gm_sender (gm_ids : gset string) (msg : message) : bool :=
  let user_id := remove_all "user" (default "" (from_id msg)) in
  bool_decide (user_id ∈ gm_ids).

(** Body of the loop over the months of one campaign: appends to the month
    file, creating it with a header first, and collects the written ids. *)
Definition write_month (campaign_name campaign_dir : string)
    (gm_ids : gset string) (acc : fs * gset string)
    (item : string * list message) : fs * gset string :=
  let '(files, new_ids) := acc in
  let '(month_str, month_msgs) := item in
  let log_file := month_str +:+ ".md" in
  let old := files !! campaign_dir ≫= (.!! log_file) in
  let start :=
    match old with
    | None => header campaign_name month_str
    | Some content => content
    end in
  let entries :=
    concat_str ((λ msg, format_entry msg (is_gm_sender gm_ids msg) +:+ nl)
                <$> month_msgs) in
  (write_file campaign_dir log_file (start +:+ entries) files,
   new_ids ∪ list_to_set (msg_id <$> month_msgs)).

(** Body of the loop over the campaigns found in the export. *)
Definition import_campaign (dry_run : bool) (gm_map : gmap string (gset string))
    (acc : fs * gmap string nat) (item : string * list message)
    : fs * gmap string nat :=
  let '(files, results) := acc in
  let '(campaign_name, msgs) := item in
  let campaign_dir := sanitize_dirname campaign_name in
  let gm_ids := default ∅ (gm_map !! campaign_name) in
  let files := if dry_run then files else mkdir campaign_dir files in
  let imported_ids :=
    if dry_run then ∅ else get_imported_ids files campaign_dir in
  let '(by_month, new_count) := group_by_month imported_ids msgs in
  match new_count with
  | O => (files, <[campaign_name := O]> results)
  | _ =>
    if dry_run then (files, <[campaign_name := new_count]> results) else
    let '(files, new_ids) :=
      foldl (write_month campaign_name campaign_dir gm_ids) (files, ∅)
            (sorted_items by_month) in
    let all_ids := imported_ids ∪ new_ids in
    (save_imported_ids files campaign_dir all_ids,
     <[campaign_name := new_count]> results)
  end.

Definition pbp_messages_of (cfg : config) (exp : export)
    : gmap string (list message) :=
  foldl (classify (build_thread_map cfg)) ∅ (default [] (messages exp)).

(** [import_messages(export_path, dry_run=...)], with the configuration and
    the export already loaded; the file system is an explicit state. *)
Definition import_messages (cfg : config) (exp : export) (dry_run : bool)
    (files : fs) : fs * gmap string nat :=
  let gm_map := build_gm_map cfg in
  let pbp_messages := pbp_messages_of cfg exp in
  foldl (import_campaign dry_run gm_map) (files, ∅) (sorted_items pbp_messages).

End Importer.

(** ** Vocabulary of the specification *)

Module CheckerSpec.
Import Checker.

(** The largest update id of a batch, if the batch is not empty. *)
Definition max_update_id (updates : list update) : option Z :=
  foldr (λ u acc, Some (match acc with
                        | None => update_id u
                        | Some m => Z.max (update_id u) m
                        end)) None updates.

(** The sender's display name and bot flag, with the defaults of the code. *)
Definition sender_name (msg : message) : string :=
  default "Someone" (from msg ≫= first_name).

Definition from_bot (msg : message) : bool :=
  default false (from msg ≫= is_bot).

(** An update "passes all filters" for the topic key [k]: it carries a
    message of the configured group, in a thread that is a configured PBP
    topic, from a sender that is not flagged as a bot. *)
Definition qualifies (cfg : config) (u : update) (k : string) (msg : message) : Prop :=
  upd_message u = Some msg ∧
  msg_chat msg ≫= id = Some (group_id cfg) ∧
  (∃ thread, message_thread_id msg = Some thread ∧ k = str thread ∧
     ∃ pair, pair ∈ topic_pairs cfg ∧ pbp_topic_id pair = thread) ∧
  from_bot msg = false.

(** The state of the [offset], [topics] and [last_alerts] components after a
    call, projected from the triple the model returns. *)
Definition new_offset_of {W} (r : Z * state * W) : Z := r.1.1.
Definition state_of {A W} (r : A * state * W) : state := r.1.2.
Definition alerts_of (st : state) : gmap string time := default ∅ (last_alerts st).

Definition checked_state {W} (r : state * list outcome * W) : state := r.1.1.
Definition log_of {W} (r : state * list outcome * W) : list outcome := r.1.2.

#[global] Arguments new_offset_of {_} !_ /.
#[global] Arguments state_of {_ _} !_ /.
#[global] Arguments checked_state {_} !_ /.
#[global] Arguments log_of {_} !_ /.

Definition alert_hours_of (cfg : config) : Q :=
  default (inject_Z 4) (alert_after_hours cfg).

Definition key_of (pair : topic_pair) : string := str (pbp_topic_id pair).

(** The decision one iteration of [check_and_alert] takes before it touches
    the transport: skip with a reason, or attempt to send a text. *)
Inductive decision :=
  | Skip (reason : outcome)
  | Attempt (text : string).

Definition decide_pair (alert_hours : Q) (now : time) (st : state)
    (pair : topic_pair) : decision :=
  match topics st !! key_of pair with
  | None => Skip Untracked
  | Some ts =>
    let elapsed := hours_between now (last_message_time ts) in
    if Qlt_le_dec elapsed alert_hours then Skip Active else
    match alerts_of st !! key_of pair with
    | Some last_alert =>
      if Qlt_le_dec (hours_between now last_alert) alert_hours
      then Skip Cooling
      else Attempt (alert_text (name pair) elapsed ts)
    | None => Attempt (alert_text (name pair) elapsed ts)
    end
  end.

Definition is_attempt (o : outcome) : Prop :=
  match o with
  | Sent _ _ _ | Failed _ _ _ => True
  | _ => False
  end.

Definition is_sent (o : outcome) : Prop :=
  match o with
  | Sent _ _ _ => True
  | _ => False
  end.

#[global] Instance is_attempt_dec o : Decision (is_attempt o).
Proof. destruct o; simpl; apply _. Defined.

#[global] Instance is_sent_dec o : Decision (is_sent o).
Proof. destruct o; simpl; apply _. Defined.

(** The loop of [check_and_alert] starts from the state in which the
    [last_alerts] key is present. *)
Definition with_alerts (st : state) : state :=
  State (offset st) (topics st) (Some (alerts_of st)).

Definition monitor_loop `{Env W} (cfg : config) (ah : Q) (now : time)
    (st : state) (w : W) (ps : list topic_pair) : state * list outcome * W :=
  foldl (check_pair cfg ah now) (st, [], w) ps.


(** The world a call leaves behind. *)
Definition world_of {W} (r : state * list outcome * W) : W := r.2.
#[global] Arguments world_of {_} !_ /.

(** The run of [check_and_alert] at the moment it reaches the pair at
    position [i]: the state, the log and the world that the pairs before it
    have left. *)
Definition reached `{Env W} (cfg : config) (st : state) (w : W) (i : nat)
    : state * list outcome * W :=
  monitor_loop cfg (alert_hours_of cfg) (utcnow w).1 (with_alerts st)
               (utcnow w).2 (take i (topic_pairs cfg)).

(** No other pair of the configuration has the topic id of the pair at
    position [i]. *)
Definition only_pair_of_topic (cfg : config) (i : nat) (pair : topic_pair)
    : Prop :=
  ∀ j p, topic_pairs cfg !! j = Some p → key_of p = key_of pair → j = i.

(** C2 as the specification words it: the record written for a qualifying
    update carries the message's own timestamp. *)
Definition records_message_timestamp : Prop :=
  ∀ W (E : Env W) cfg (st : state) (w : W) u k msg t,
    qualifies cfg u k msg → date msg = Some t →
    ∃ ts, topics (state_of (process_updates [u] cfg st w)) !! k = Some ts
          ∧ last_message_time ts = t.

End CheckerSpec.

Module ImporterSpec.
Import Importer.

(** The first non-empty string of a list of candidates, [""] if all are
    empty. *)
Fixpoint first_nonempty (candidates : list string) : string :=
  match candidates with
  | [] => ""
  | EmptyString :: rest => first_nonempty rest
  | s :: _ => s
  end.

(** The three readings of a message's text, written out from their
    description.  A plain string is read as it stands.  A mixed list is read
    piece by piece, in order: a plain string as it stands, a tagged span by
    its text without the tag, anything else not at all.  The side list
    [text_entities] is read span by span.  Each reading is stripped. *)
Fixpoint mixed_text (pieces : list chunk) : string :=
  match pieces with
  | [] => ""
  | ChunkStr s :: rest => s +:+ mixed_text rest
  | ChunkDict _ (Some t) :: rest => t +:+ mixed_text rest
  | _ :: rest => mixed_text rest
  end.

Fixpoint spans_text (spans : list chunk) : string :=
  match spans with
  | [] => ""
  | ChunkDict _ (Some t) :: rest => t +:+ spans_text rest
  | _ :: rest => spans_text rest
  end.

Definition plain_reading (msg : message) : string :=
  match text msg with
  | Some (TextStr s) => strip s
  | _ => ""
  end.

Definition mixed_reading (msg : message) : string :=
  match text msg with
  | Some (TextList pieces) => strip (mixed_text pieces)
  | _ => ""
  end.

Definition entities_reading (msg : message) : string :=
  match text_entities msg with
  | Some spans => strip (spans_text spans)
  | None => ""
  end.

(** The five values of ["media_type"] that name a tag of their own. *)
Definition media_markers : list string :=
  ["animation"; "video_file"; "voice_message"; "video_message"; "sticker"].

Definition marked (msg : message) : Prop :=
  ∃ m, media_type msg = Some m ∧ m ∈ media_markers.

(** The last path component of a file reference. *)
Definition basename (path : string) : string :=
  default "" (last (split "/" path)).

(** The JSON object [{}] and objects with a few keys set. *)
Definition no_keys : message :=
  Message None None None None None None None None None None None None None None.

Definition only_text (t : text_value) : message :=
  Message None None None None None None None None (Some t) None None None None None.

(** A message with a ["text"] and a ["text_entities"] key. *)
Definition text_and_entities (t : text_value) (spans : list chunk) : message :=
  Message None None None None None None None None (Some t) (Some spans)
          None None None None.

(** The no-break space U+00A0, in UTF-8. *)
Definition nbsp : string :=
  String (ascii_of_N 194) (String (ascii_of_N 160) "").

Definition only_media_type (m : string) : message :=
  Message None None None None None None None None None None (Some m) None None None.

Definition only_photo (p : string) : message :=
  Message None None None None None None None None None None None None (Some p) None.

(** Strings of plain characters (ASCII, no white space): what [str]
    produces for an integer and what survives [strip] and [split]
    untouched. *)
Fixpoint all_chars (test : ascii → bool) (s : string) : bool :=
  match s with
  | EmptyString => true
  | String c s' => test c && all_chars test s'
  end.

Definition clean (s : string) : Prop :=
  s ≠ "" ∧ all_chars plain s = true.

(** A text that is empty or ends with a newline, and one that is empty or
    starts with one: what surrounds a line inside a file. *)
Definition line_start (a : string) : Prop := a = "" ∨ ∃ a0, a = a0 +:+ nl.
Definition line_end (b : string) : Prop := b = "" ∨ ∃ b0, b = nl +:+ b0.

(** The last character of a text is [c]. *)
Fixpoint ends_with (c : ascii) (s : string) : bool :=
  match s with
  | EmptyString => false
  | String d EmptyString => Ascii.eqb d c
  | String _ s' => ends_with c s'
  end.

(** The content [save_imported_ids] writes for a set of ids. *)
Definition tracker_content (ids : gset string) : string :=
  join nl (sorted (elements ids)) +:+ nl.

(** A message counts as new when its id is not in the imported set and it
    has a month. *)
Definition is_new (imported : gset string) (m : message) : Prop :=
  (msg_id m ∉ imported) ∧ (month_of m ≠ "").

#[global] Instance is_new_dec imported m : Decision (is_new imported m).
Proof. unfold is_new. apply _. Defined.

Definition count_new (imported : gset string) (msgs : list message) : nat :=
  length (filter (is_new imported) msgs).

(** A message sits in one of the month lists. *)
Definition grouped (by_month : gmap string (list message)) (m : message) : Prop :=
  ∃ k l, by_month !! k = Some l ∧ m ∈ l.

(** The messages the month loop writes entries for, in the order it writes
    them. *)
Definition written (by_month : gmap string (list message)) : list message :=
  sorted_items by_month ≫= snd.

(** The directory of a campaign. *)
Definition campaign_dir_of (campaign_name : string) : string :=
  sanitize_dirname campaign_name.

(** The loop of [import_messages] over the campaigns, from any state. *)
Definition import_loop (dry_run : bool) (gm_map : gmap string (gset string))
    (files : fs) (results : gmap string nat)
    (items : list (string * list message)) : fs * gmap string nat :=
  foldl (import_campaign dry_run gm_map) (files, results) items.

(** The campaigns of an export, in the order they are imported. *)
Definition campaigns_of (cfg : config) (exp : export)
    : list (string * list message) :=
  sorted_items (pbp_messages_of cfg exp).



(** The candidates of a campaign that carry a date. *)
Definition count_dated (msgs : list message) : nat :=
  length (filter (λ m, month_of m ≠ "") msgs).


(** C4 as the specification words it: on every state a dry run reports the
    counts a real run would report. *)
Definition dry_run_matches_real_run : Prop :=
  ∀ cfg exp (files : fs),
    (import_messages cfg exp true files).2
    = (import_messages cfg exp false files).2.

End ImporterSpec.

(** Concrete configurations, states and worlds used to exercise the
    statements below. *)
Module CheckerScenario.
Import Checker CheckerSpec.

Definition hour : Z := 3600000000.

Definition alpha : topic_pair := TopicPair 7 8 "Alpha".

(** Group -1001, threshold four hours, one campaign. *)
Definition cfg : config := Config (-1001) (Some (inject_Z 4)) [alpha].

(** Bob posted in topic 7 at instant 0; nothing else is known. *)
Definition quiet : state :=
  State (Some 10) {["7" := TopicState 0 (Some "Bob") (Some "Alpha")]} None.


(** A world whose clock reads [t] and whose transport answers [ok]. *)
Definition at_time (t : time) (ok : bool) : script := Script [t] [ok].

Definition from_al : message :=
  Message (Some (Chat (Some (-1001)))) (Some 7)
          (Some (User (Some false) (Some "Al"))) (Some 100).

Definition from_bot_user : message :=
  Message (Some (Chat (Some (-1001)))) (Some 7)
          (Some (User (Some true) (Some "Nudge"))) (Some 101).

End CheckerScenario.

(** A configuration with one campaign and an export of three posts in its
    topic and one elsewhere, as in the importer's test suite. *)
Module ImporterScenario.
Import Importer ImporterSpec.

Definition cfg : config :=
  Config (Some [999]) (Some [TopicPair "TestCampaign" (Some [100]) None]).

Definition post (n : option Z) (thread : Z) (body date_str sender : string)
    : message :=
  Message n (Some "message") (Some thread) None None (Some date_str)
          (Some "Alice") (Some sender) (Some (TextStr body))
          None None None None None.

Definition posts : list message :=
  [post (Some 1) 100 "First post" "2025-06-15T10:00:00" "user42";
   post (Some 2) 100 "GM narrates" "2025-06-15T10:05:00" "user999";
   post (Some 3) 100 "July post" "2025-07-01T12:00:00" "user42"].

Definition exported : export :=
  Export (Some (posts ++ [post (Some 4) 999 "Wrong topic" "2025-07-01T12:00:00"
                               "user42"])).

(** A later export that repeats post 3 and adds post 5. *)
Definition exported_later : export :=
  Export (Some [post (Some 3) 100 "July post" "2025-07-01T12:00:00" "user42";
                post (Some 5) 100 "August post" "2025-08-02T09:00:00" "user42"]).

(** The state after a first real import of [exported]. *)
Definition imported_once : fs := (import_messages cfg exported false ∅).1.

(** An export in which one record lacks its id. *)
Definition exported_without_id : export :=
  Export (Some [post None 100 "First post" "2025-06-15T10:00:00" "user42";
                post (Some 2) 100 "GM narrates" "2025-06-15T10:05:00" "user999"]).

End ImporterScenario.

(** Further vocabulary for the importer: what the classification loop
    files under a campaign, the alphabet of directory names, the content of
    a file, and the entries written for a list of messages. *)
Module ImporterTerms.
Import Importer ImporterSpec.

(** The ids a pair lists, and the ids that mark its game masters: the
    pair's own list when it has one (even an empty one), the global list
    otherwise. *)
Definition listed_ids (pair : topic_pair) : list Z :=
  default [] (pbp_topic_ids pair).

Definition gm_ids_of (cfg : config) (pair : topic_pair) : list Z :=
  default (default [] (gm_user_ids cfg)) (pair_gm_user_ids pair).

(** A record the classification loop files under campaign [c]: an ordinary
    message, not a service message, whose thread is mapped to [c]. *)
Definition candidate (thread_map : gmap Z string) (c : string)
    (msg : message) : Prop :=
  type msg = Some "message"
  ∧ thread_of msg ≫= (λ t, thread_map !! t) = Some c
  ∧ truthy (action msg) = false.

#[global] Instance candidate_dec thread_map c msg :
  Decision (candidate thread_map c msg).
Proof. unfold candidate. apply _. Defined.

(** The characters a directory name is made of. *)
Definition dir_char (c : ascii) : bool :=
  py_isalnum c || bool_decide (c ∈ ["-"; "_"]%char).

(** A character of the ASCII range; on a text of such characters
    [py_isalnum] is [str.isalnum]. *)
Definition is_ascii (c : ascii) : bool := (N_of_ascii c <? 128)%N.

(** The content of a file, if the directory and the file exist. *)
Definition file_at (files : fs) (d f : string) : option string :=
  files !! d ≫= (.!! f).

(** The sort key of the month loop and the order it induces. *)
Definition date_of (m : message) : string := default "" (date m).

Definition date_le (a b : message) : Prop := String.le (date_of a) (date_of b).

(** The entries the month loop writes for a list of messages. *)
Definition entries (gm_ids : gset string) (msgs : list message) : string :=
  concat_str ((λ msg, format_entry msg (is_gm_sender gm_ids msg) +:+ nl)
              <$> msgs).

(** The new messages of one month, in the order of the export. *)
Definition new_in_month (imported : gset string) (k : string)
    (m : message) : Prop :=
  is_new imported m ∧ month_of m = k.

#[global] Instance new_in_month_dec imported k m :
  Decision (new_in_month imported k m).
Proof. unfold new_in_month. apply _. Defined.

(** Every transcript of [files] is still there in [files'], with its old
    content as a prefix. *)
Definition extends (files files' : fs) : Prop :=
  ∀ d f content, f ≠ tracker → file_at files d f = Some content →
    ∃ suffix, file_at files' d f = Some (content +:+ suffix).




End ImporterTerms.

(** * Strings: stripping, splitting and joining *)

Section string_facts.
Import ImporterSpec.
Implicit Types (s t a b x : string) (c : ascii).

Lemma string_app_nil_r s : s +:+ "" = s.
Proof.
  induction s as [|c s IH]; [done|].
  change (String c (s +:+ "") = String c s). by rewrite IH.
Qed.

Lemma string_app_cons c s b : String c s +:+ b = String c (s +:+ b).
Proof. done. Qed.

Lemma string_app_assoc a b s : (a +:+ b) +:+ s = a +:+ b +:+ s.
Proof.
  induction a as [|c a IH]; [done|].
  rewrite !string_app_cons. by rewrite IH.
Qed.



(** A plain character is no white space and starts no white-space
    character; it is no part of one either. *)
Lemma plain_space1 c : plain c = true → space1 c = false.
Proof. unfold plain. by intros [?%negb_true_iff _]%andb_true_iff. Qed.

Lemma plain_ascii c : plain c = true → (N_of_ascii c < 128)%N.
Proof. unfold plain. by intros [_ ?%N.ltb_lt]%andb_true_iff. Qed.

Lemma space2_high c d :
  space2 c d = true → (128 ≤ N_of_ascii c)%N ∧ (128 ≤ N_of_ascii d)%N.
Proof.
  unfold space2. cbv zeta.
  rewrite andb_true_iff, orb_true_iff, !N.eqb_eq. lia.
Qed.

Lemma space3_high c d e :
  space3 c d e = true →
  (128 ≤ N_of_ascii c)%N ∧ (128 ≤ N_of_ascii d)%N ∧ (128 ≤ N_of_ascii e)%N.
Proof.
  unfold space3. cbv zeta.
  rewrite !orb_true_iff, !andb_true_iff, !orb_true_iff, !andb_true_iff,
    !N.eqb_eq, !N.leb_le. lia.
Qed.

Lemma plain_space2_l c d : plain c = true → space2 c d = false.
Proof.
  intros Hc%plain_ascii. destruct (space2 c d) eqn:E; [|done].
  apply space2_high in E. lia.
Qed.

Lemma plain_space2_r c d : plain d = true → space2 c d = false.
Proof.
  intros Hc%plain_ascii. destruct (space2 c d) eqn:E; [|done].
  apply space2_high in E. lia.
Qed.

Lemma plain_space3_l c d e : plain c = true → space3 c d e = false.
Proof.
  intros Hc%plain_ascii. destruct (space3 c d e) eqn:E; [|done].
  apply space3_high in E. lia.
Qed.

Lemma plain_space3_m c d e : plain d = true → space3 c d e = false.
Proof.
  intros Hc%plain_ascii. destruct (space3 c d e) eqn:E; [|done].
  apply space3_high in E. lia.
Qed.

Lemma plain_space3_r c d e : plain e = true → space3 c d e = false.
Proof.
  intros Hc%plain_ascii. destruct (space3 c d e) eqn:E; [|done].
  apply space3_high in E. lia.
Qed.

Lemma py_isspace_no_plain s :
  py_isspace s = true → all_chars (λ c, negb (plain c)) s = true.
Proof.
  destruct s as [|c [|d [|e [|f s]]]]; try done; simpl; intros Hs.
  - destruct (plain c) eqn:E; [|done]. by rewrite (plain_space1 c E) in Hs.
  - destruct (plain c) eqn:E; [by rewrite (plain_space2_l c d E) in Hs|].
    destruct (plain d) eqn:E'; [by rewrite (plain_space2_r c d E') in Hs|done].
  - destruct (plain c) eqn:E; [by rewrite (plain_space3_l c d e E) in Hs|].
    destruct (plain d) eqn:E'; [by rewrite (plain_space3_m c d e E') in Hs|].
    destruct (plain e) eqn:E''; [by rewrite (plain_space3_r c d e E'') in Hs|done].
Qed.

Lemma all_chars_app test a b :
  all_chars test (a +:+ b) = all_chars test a && all_chars test b.
Proof.
  induction a as [|c a IH]; [done|]. rewrite string_app_cons. simpl.
  by rewrite IH, andb_assoc.
Qed.

Lemma py_isspace_with_plain a c b :
  plain c = true → py_isspace (a +:+ String c b) = false.
Proof.
  intros Hc. destruct (py_isspace _) eqn:E; [|done].
  apply py_isspace_no_plain in E. rewrite all_chars_app in E. simpl in E.
  rewrite Hc in E. simpl in E. by rewrite andb_false_r in E.
Qed.

(** [lstrip] removes leading white-space characters one at a time. *)
Lemma lstrip_unfold s :
  lstrip s = match after_space s with Some r => lstrip r | None => s end.
Proof.
  destruct s as [|a [|b [|c s]]]; simpl; try done.
  - by destruct (space1 a).
  - destruct (space1 a); [done|]. by destruct (space2 a b).
  - destruct (space1 a); [done|]. destruct (space2 a b); [done|].
    by destruct (space3 a b c).
Qed.

Lemma after_space_tail s r :
  after_space s = Some r → ∃ p, s = p +:+ r ∧ py_isspace p = true.
Proof.
  destruct s as [|a [|b [|c s]]]; simpl; try done.
  - destruct (space1 a) eqn:E; [|done]. intros [= <-]. by exists (String a "").
  - destruct (space1 a) eqn:E.
    { intros [= <-]. by exists (String a ""). }
    destruct (space2 a b) eqn:E2; [|done]. intros [= <-].
    by exists (String a (String b "")).
  - destruct (space1 a) eqn:E.
    { intros [= <-]. by exists (String a ""). }
    destruct (space2 a b) eqn:E2.
    { intros [= <-]. by exists (String a (String b "")). }
    destruct (space3 a b c) eqn:E3; [|done]. intros [= <-].
    by exists (String a (String b (String c ""))).
Qed.

Lemma string_length_app a b :
  String.length (a +:+ b) = (String.length a + String.length b)%nat.
Proof.
  induction a as [|c a IH]; [done|]. rewrite string_app_cons. simpl.
  by rewrite IH.
Qed.

Lemma after_space_shorter s r :
  after_space s = Some r → (String.length r < String.length s)%nat.
Proof.
  intros (p & -> & Hp)%after_space_tail. rewrite string_length_app.
  destruct p; [done|]. simpl. lia.
Qed.

(** Induction along the way [lstrip] goes. *)
Lemma lstrip_ind (P : string → Prop) :
  (∀ s, (∀ r, after_space s = Some r → P r) → P s) → ∀ s, P s.
Proof.
  intros Hstep.
  assert (∀ n s, (String.length s < n)%nat → P s) as Hall.
  { induction n as [|n IH]; intros s Hn; [lia|].
    apply Hstep. intros r Hr%after_space_shorter. apply IH. lia. }
  intros s. apply (Hall (S (String.length s))). lia.
Qed.

Lemma after_space_lstrip s : after_space (lstrip s) = None.
Proof.
  induction s as [s IH] using lstrip_ind. rewrite lstrip_unfold.
  destruct (after_space s) as [r|] eqn:E; [by apply IH|done].
Qed.

Lemma lstrip_fixed s : after_space s = None → lstrip s = s.
Proof. intros Hs. by rewrite lstrip_unfold, Hs. Qed.

Lemma after_space_app s r u :
  after_space s = Some r → after_space (s +:+ u) = Some (r +:+ u).
Proof.
  destruct s as [|a [|b [|c s]]]; simpl; try done;
    repeat (match goal with
            | |- context [if ?x then _ else _] => destruct x eqn:?
            end);
    try done; by intros [= <-].
Qed.

Lemma after_space_before_plain a c r :
  plain c = true →
  after_space (a +:+ String c r) = (λ t, t +:+ String c r) <$> after_space a.
Proof.
  intros Hc. destruct (after_space a) as [t|] eqn:E.
  { by rewrite (after_space_app a t _ E). }
  pose proof (plain_space1 c Hc) as H1.
  destruct a as [|x [|y [|z a]]]; simpl in *.
  - rewrite H1. destruct r as [|d [|e r]]; try done.
    + by rewrite plain_space2_l.
    + by rewrite plain_space2_l, plain_space3_l.
  - destruct (space1 x) eqn:E1; [done|].
    rewrite plain_space2_r by done.
    destruct r as [|d r]; [done|]. by rewrite plain_space3_m.
  - destruct (space1 x) eqn:E1; [done|]. destruct (space2 x y) eqn:E2; [done|].
    by rewrite plain_space3_r.
  - destruct (space1 x) eqn:E1; [done|]. destruct (space2 x y) eqn:E2; [done|].
    by destruct (space3 x y z) eqn:E3.
Qed.

Lemma lstrip_before_nonspace a c r :
  plain c = true → lstrip (a +:+ String c r) = lstrip a +:+ String c r.
Proof.
  intros Hc. induction a as [a IH] using lstrip_ind.
  rewrite (lstrip_unfold (a +:+ _)), (lstrip_unfold a).
  rewrite after_space_before_plain by done.
  destruct (after_space a) as [t|] eqn:E; simpl; [by apply IH|done].
Qed.

Lemma rstrip_cons_nonspace c b :
  plain c = true → rstrip (String c b) = String c (rstrip b).
Proof.
  intros Hc. cbn [rstrip]. cbv zeta.
  pose proof (py_isspace_with_plain "" c (rstrip b) Hc) as Hno.
  change ("" +:+ String c (rstrip b)) with (String c (rstrip b)) in Hno.
  by rewrite Hno.
Qed.

Lemma rstrip_after_nonspace a c b :
  plain c = true → rstrip (a +:+ String c b) = a +:+ String c (rstrip b).
Proof.
  intros Hc. induction a as [|d a IH].
  - by apply rstrip_cons_nonspace.
  - rewrite !string_app_cons. cbn [rstrip]. cbv zeta. rewrite IH.
    pose proof (py_isspace_with_plain (String d a) c (rstrip b) Hc) as Hno.
    rewrite string_app_cons in Hno. by rewrite Hno.
Qed.

Lemma clean_first x : clean x → ∃ c r, x = String c r ∧ plain c = true.
Proof.
  intros [Hne Hall]. destruct x as [|c r]; [done|]. exists c, r.
  split; [done|]. simpl in Hall. by apply andb_true_iff in Hall as [Hc _].
Qed.

Lemma clean_last x :
  clean x → ∃ x0 c, x = x0 +:+ String c "" ∧ plain c = true.
Proof.
  intros [Hne Hall]. induction x as [|d x IH]; [done|].
  simpl in Hall. apply andb_true_iff in Hall as [Hd Hall].
  destruct x as [|e x].
  - by exists "", d.
  - destruct (IH ltac:(done) Hall) as (x0 & c & -> & Hc).
    exists (String d x0), c. done.
Qed.

(** Stripping does not reach into a line of plain characters. *)
Lemma strip_around_clean a x b :
  clean x → strip (a +:+ x +:+ b) = lstrip a +:+ x +:+ rstrip b.
Proof.
  intros Hx. unfold strip.
  destruct (clean_first x Hx) as (c & r & Hf & Hc).
  destruct (clean_last x Hx) as (x0 & c' & Hl & Hc').
  rewrite Hf at 1. rewrite string_app_cons, lstrip_before_nonspace by done.
  rewrite <- string_app_cons, <- Hf, Hl.
  rewrite (string_app_assoc x0), <- (string_app_assoc (lstrip a)).
  rewrite string_app_cons. change ("" +:+ b) with b.
  rewrite rstrip_after_nonspace by done.
  rewrite string_app_assoc. f_equal. rewrite string_app_assoc. done.
Qed.

Lemma line_start_tail c a : line_start (String c a) → line_start a.
Proof.
  intros [|[a0 Ha]]; [done|]. destruct a0 as [|d a0].
  - left. by injection Ha.
  - right. exists a0. by injection Ha.
Qed.

Lemma line_start_after_space a r :
  after_space a = Some r → line_start a → line_start r.
Proof.
  intros (p & -> & Hp)%after_space_tail.
  induction p as [|c p IH]; [done|]. rewrite string_app_cons.
  intros Ha%line_start_tail. destruct p as [|d p]; [done|].
  revert Ha. rewrite string_app_cons. intros Ha%line_start_tail.
  destruct p as [|e p]; [done|].
  revert Ha. rewrite string_app_cons. intros Ha%line_start_tail.
  by destruct p.
Qed.

Lemma line_start_lstrip a : line_start a → line_start (lstrip a).
Proof.
  induction a as [a IH] using lstrip_ind. intros Ha. rewrite lstrip_unfold.
  destruct (after_space a) as [r|] eqn:E; [|done].
  apply IH; [done|]. by eapply line_start_after_space.
Qed.

Lemma line_end_rstrip b : line_end b → line_end (rstrip b).
Proof.
  intros [->|[b0 ->]]; [by left|].
  change (nl +:+ b0) with (String nl_char b0). cbn [rstrip]. cbv zeta.
  destruct (py_isspace _); [by left|]. right. by eexists.
Qed.

Lemma split_nonempty sep s : split sep s ≠ [].
Proof. destruct s as [|c s]; [done|]. simpl. by repeat case_match. Qed.

Lemma split_app_sep sep a r :
  split sep (a +:+ String sep r) = split sep a ++ split sep r.
Proof.
  induction a as [|d a IH].
  - change (split sep (String sep r) = [""] ++ split sep r).
    simpl. by rewrite Ascii.eqb_refl.
  - rewrite string_app_cons. simpl. rewrite IH.
    destruct (Ascii.eqb d sep); [done|].
    pose proof (split_nonempty sep a). by destruct (split sep a).
Qed.

Lemma split_without_sep sep s :
  all_chars (λ c, negb (Ascii.eqb c sep)) s = true → split sep s = [s].
Proof.
  induction s as [|c s IH]; [done|]. simpl. intros [Hc Hs]%andb_true_iff.
  apply negb_true_iff in Hc. by rewrite Hc, IH.
Qed.

Lemma all_chars_impl (P Q : ascii → bool) s :
  (∀ c, P c = true → Q c = true) → all_chars P s = true → all_chars Q s = true.
Proof.
  intros HPQ. induction s as [|c s IH]; [done|]. simpl.
  intros [Hc Hs]%andb_true_iff. by rewrite (HPQ c Hc), IH.
Qed.

Lemma clean_no_newline x :
  clean x → all_chars (λ c, negb (Ascii.eqb c nl_char)) x = true.
Proof.
  intros [_ Hall]. revert Hall. apply all_chars_impl. intros c Hc.
  destruct (Ascii.eqb_spec c nl_char) as [->|]; done.
Qed.

(** A clean line between a line start and a line end is one of the pieces
    of the split. *)
Lemma line_in_split a x b :
  clean x → line_start a → line_end b →
  x ∈ split nl_char (a +:+ x +:+ b).
Proof.
  intros Hx Ha Hb. pose proof (split_without_sep _ _ (clean_no_newline x Hx)) as Hs.
  assert (x ∈ split nl_char (x +:+ b)) as Htail.
  { destruct Hb as [->|[b0 ->]].
    - rewrite string_app_nil_r, Hs. apply list_elem_of_here.
    - change (nl +:+ b0) with (String nl_char b0).
      rewrite split_app_sep, Hs. apply list_elem_of_here. }
  destruct Ha as [->|[a0 ->]]; [done|].
  rewrite string_app_assoc. change (nl +:+ x +:+ b) with (String nl_char (x +:+ b)).
  rewrite split_app_sep. apply elem_of_app. by right.
Qed.

Lemma join_around l1 x l2 :
  ∃ a b, join nl (l1 ++ x :: l2) +:+ nl = a +:+ x +:+ b
         ∧ line_start a ∧ line_end b.
Proof.
  induction l1 as [|y l1 IH].
  - exists "". destruct l2 as [|z l2]; simpl.
    + exists nl. split; [done|]. split; [by left|]. right. by exists "".
    + exists (nl +:+ join nl (z :: l2) +:+ nl).
      split; [by rewrite !string_app_assoc|]. split; [by left|].
      right. by eexists.
  - destruct IH as (a & b & Hj & Ha & Hb).
    exists (y +:+ nl +:+ a), b. split; [|split; [|done]].
    + change (join nl ((y :: l1) ++ x :: l2))
        with (join nl (y :: (l1 ++ x :: l2))).
      assert (join nl (y :: (l1 ++ x :: l2)) = y +:+ nl +:+ join nl (l1 ++ x :: l2))
        as -> by (by destruct l1).
      by rewrite !string_app_assoc, Hj.
    + right. destruct Ha as [->|[a0 ->]].
      * exists y. by rewrite string_app_nil_r.
      * exists (y +:+ nl +:+ a0). by rewrite !string_app_assoc.
Qed.

(** Reading back what [save_imported_ids] wrote returns every id that has no
    white space in it. *)
Lemma tracker_roundtrip_keeps (ids : gset string) x :
  x ∈ ids → clean x →
  x ∈ split nl_char (strip (tracker_content ids)).
Proof.
  intros Hin Hx. unfold tracker_content.
  assert (x ∈ sorted (elements ids)) as Hs.
  { unfold sorted. rewrite merge_sort_Permutation. by apply elem_of_elements. }
  apply list_elem_of_split in Hs as (l1 & l2 & ->).
  destruct (join_around l1 x l2) as (a & b & -> & Ha & Hb).
  rewrite strip_around_clean by done.
  apply line_in_split; [done|by apply line_start_lstrip|by apply line_end_rstrip].
Qed.

(** Decimal numerals are clean. *)
Lemma pretty_N_go_all (test : ascii → bool) (k : N) s :
  (∀ d, test (pretty_N_char d) = true) →
  all_chars test s = true → all_chars test (pretty_N_go k s) = true.
Proof.
  intros Hd. revert s. induction (N.lt_wf_0 k) as [k _ IH]. intros s Hs.
  destruct (decide (0 < k)%N) as [Hpos|Hzero].
  - rewrite pretty_N_go_step by done. apply IH.
    + by apply N.div_lt.
    + simpl. by rewrite Hd, Hs.
  - assert (k = 0%N) as -> by lia. by rewrite pretty_N_go_0.
Qed.




(** ** Stripping twice, and stripping what needs none *)

Lemma rstrip_prefix s : ∃ u, s = rstrip s +:+ u.
Proof.
  induction s as [|c s [u Hu]]; [by exists ""|]. cbn [rstrip]. cbv zeta.
  destruct (py_isspace _); [by eexists|].
  exists u. rewrite string_app_cons. by rewrite <- Hu.
Qed.

Lemma rstrip_idem s : rstrip (rstrip s) = rstrip s.
Proof.
  induction s as [|c s IH]; [done|]. cbn [rstrip]. cbv zeta.
  destruct (py_isspace (String c (rstrip s))) eqn:E; [done|].
  cbn [rstrip]. cbv zeta. by rewrite IH, E.
Qed.

Lemma after_space_rstrip s : after_space s = None → after_space (rstrip s) = None.
Proof.
  intros Hs. destruct (after_space (rstrip s)) as [r|] eqn:E; [|done].
  destruct (rstrip_prefix s) as [u Hu].
  apply (after_space_app _ _ u) in E. rewrite <- Hu in E. congruence.
Qed.

Lemma strip_idem s : strip (strip s) = strip s.
Proof.
  unfold strip. rewrite (lstrip_fixed (rstrip (lstrip s))).
  - apply rstrip_idem.
  - apply after_space_rstrip, after_space_lstrip.
Qed.

Lemma lstrip_all test s :
  all_chars test s = true → all_chars test (lstrip s) = true.
Proof.
  induction s as [s IH] using lstrip_ind. intros Hs. rewrite lstrip_unfold.
  destruct (after_space s) as [r|] eqn:E; [|done].
  apply IH; [done|]. apply after_space_tail in E as (p & -> & _).
  rewrite all_chars_app in Hs. by apply andb_true_iff in Hs as [_ ?].
Qed.

Lemma rstrip_all test s :
  all_chars test s = true → all_chars test (rstrip s) = true.
Proof.
  intros Hs. destruct (rstrip_prefix s) as [u Hu]. rewrite Hu in Hs.
  rewrite all_chars_app in Hs. by apply andb_true_iff in Hs as [? _].
Qed.

Lemma strip_all test s :
  all_chars test s = true → all_chars test (strip s) = true.
Proof. intros Hs. by apply rstrip_all, lstrip_all. Qed.

Lemma rstrip_plain s : all_chars plain s = true → rstrip s = s.
Proof.
  induction s as [|c s IH]; [done|]. simpl.
  intros [Hc Hs]%andb_true_iff.
  change (rstrip (String c s) = String c s).
  by rewrite rstrip_cons_nonspace, IH.
Qed.

Lemma strip_plain s : all_chars plain s = true → strip s = s.
Proof.
  intros Hs. unfold strip.
  assert (lstrip s = s) as ->; [|by apply rstrip_plain].
  destruct s as [|c s]; [done|]. simpl in Hs.
  apply andb_true_iff in Hs as [Hc _].
  pose proof (lstrip_before_nonspace "" c s Hc) as H. done.
Qed.

Lemma rstrip_clean_line x : clean x → rstrip (x +:+ nl) = x.
Proof.
  intros Hx. destruct (clean_last x Hx) as (x0 & c & -> & Hc).
  rewrite string_app_assoc.
  change (String c "" +:+ nl) with (String c nl).
  by rewrite rstrip_after_nonspace.
Qed.

Lemma join_last x l :
  Forall clean (x :: l) →
  ∃ p c, join nl (x :: l) = p +:+ String c "" ∧ plain c = true.
Proof.
  revert x. induction l as [|y l IH]; intros x Hall.
  - apply clean_last. by apply Forall_inv in Hall.
  - apply Forall_cons in Hall as [_ Hl].
    destruct (IH y Hl) as (p & c & Hj & Hc).
    exists (x +:+ nl +:+ p), c. split; [|done].
    change (join nl (x :: y :: l)) with (x +:+ nl +:+ join nl (y :: l)).
    by rewrite Hj, !string_app_assoc.
Qed.

Lemma rstrip_join l :
  l ≠ [] → Forall clean l → rstrip (join nl l +:+ nl) = join nl l.
Proof.
  destruct l as [|x l]; [done|]. intros _ Hall.
  destruct (join_last x l Hall) as (p & c & -> & Hc).
  rewrite string_app_assoc. change (String c "" +:+ nl) with (String c nl).
  by rewrite rstrip_after_nonspace.
Qed.

Lemma lstrip_join x l :
  clean x → lstrip (join nl (x :: l) +:+ nl) = join nl (x :: l) +:+ nl.
Proof.
  intros Hx. destruct (clean_first x Hx) as (c & r & -> & Hc).
  assert (∃ t, join nl (String c r :: l) +:+ nl = String c t) as [t ->].
  { destruct l; by eexists. }
  apply (lstrip_before_nonspace "" c t Hc).
Qed.

End string_facts.

(** * Properties of the checker *)

Section checker_facts.
Import Checker CheckerSpec.
Context `{Env W}.
Implicit Types (cfg : config) (st : state) (w : W) (u : update).

(** Case analysis on every guard of the loop body of [process_updates]. *)
Ltac track_cases :=
  unfold track, new_offset_of, state_of; simpl;
  repeat (case_match; simplify_eq/=); try done.

Lemma track_offset cfg ids off st w u :
  new_offset_of (track cfg ids (off, st, w) u) = Z.max off (update_id u + 1).
Proof. track_cases. Qed.

Lemma track_frame cfg ids off st w u :
  offset (state_of (track cfg ids (off, st, w) u)) = offset st
  ∧ last_alerts (state_of (track cfg ids (off, st, w) u)) = last_alerts st.
Proof. track_cases. Qed.

Lemma foldl_track_offset cfg ids us off st w :
  new_offset_of (foldl (track cfg ids) (off, st, w) us)
  = foldl (λ o u, Z.max o (update_id u + 1)) off us.
Proof.
  revert off st w. induction us as [|u us IH]; intros off st w; [done|].
  cbn [foldl]. destruct (track cfg ids (off, st, w) u) as [[off' st'] w'] eqn:E.
  rewrite IH. f_equal.
  change off' with (new_offset_of (off', st', w')). rewrite <- E.
  apply track_offset.
Qed.

Lemma foldl_track_frame cfg ids us off st w :
  offset (state_of (foldl (track cfg ids) (off, st, w) us)) = offset st
  ∧ last_alerts (state_of (foldl (track cfg ids) (off, st, w) us)) = last_alerts st.
Proof.
  revert off st w. induction us as [|u us IH]; intros off st w; [done|].
  cbn [foldl]. destruct (track cfg ids (off, st, w) u) as [[off' st'] w'] eqn:E.
  destruct (IH off' st' w') as [-> ->].
  change st' with (state_of (off', st', w')). rewrite <- E.
  apply track_frame.
Qed.

Lemma running_max_closed us off :
  foldl (λ o u, Z.max o (update_id u + 1)) off us
  = match max_update_id us with
    | None => off
    | Some m => Z.max off (m + 1)
    end.
Proof.
  revert off. induction us as [|u us IH]; intros off; [done|].
  simpl. rewrite IH. destruct (max_update_id us); lia.
Qed.

Lemma max_update_id_bound us u :
  u ∈ us → ∃ m, max_update_id us = Some m ∧ update_id u ≤ m.
Proof.
  induction 1 as [u us|u v us _ IH]; simpl.
  - eexists; split; [done|]. destruct (max_update_id us); lia.
  - destruct IH as (m & -> & ?). eexists; split; [done|]. lia.
Qed.

(** ** The update reconciler: tracked records *)

(** The configured topic ids are exactly the keys of the lookup table, and
    the table maps each to the name of a pair that carries the id. *)
Lemma pbp_topic_ids_lookup cfg k :
  (∀ c, pbp_topic_ids cfg !! k = Some c →
     ∃ pair, pair ∈ topic_pairs cfg ∧ key_of pair = k ∧ name pair = c)
  ∧ ((∃ pair, pair ∈ topic_pairs cfg ∧ key_of pair = k) →
     is_Some (pbp_topic_ids cfg !! k)).
Proof.
  unfold pbp_topic_ids. induction (topic_pairs cfg) as [|p ps IH] using rev_ind.
  { split; [done|]. intros (pair & Hin & _). by apply elem_of_nil in Hin. }
  rewrite foldl_snoc. destruct IH as [IH1 IH2].
  destruct (decide (key_of p = k)) as [Hk|Hk]; unfold key_of in Hk.
  - rewrite Hk, lookup_insert_eq. split; [|by eauto].
    intros c [= <-]. exists p. rewrite elem_of_app, list_elem_of_singleton. auto.
  - rewrite lookup_insert_ne by done. split.
    + intros c Hc. destruct (IH1 c Hc) as (pair & Hin & Hkey & Hn).
      exists pair. rewrite elem_of_app. auto.
    + intros (pair & Hin & Hkey). apply IH2. exists pair. split; [|done].
      apply elem_of_app in Hin as [|Hin]; [done|].
      apply list_elem_of_singleton in Hin as ->. done.
Qed.

(** A qualifying update overwrites the record of its topic with the clock
    reading taken while it is processed, the sender's first name and the
    configured campaign name. *)
Lemma track_qualifying cfg off st w u k msg :
  qualifies cfg u k msg →
  ∃ campaign,
    pbp_topic_ids cfg !! k = Some campaign
    ∧ track cfg (pbp_topic_ids cfg) (off, st, w) u
      = (Z.max off (update_id u + 1),
         State (offset st)
               (<[k := TopicState (utcnow w).1 (Some (sender_name msg))
                                  (Some campaign)]> (topics st))
               (last_alerts st),
         (utcnow w).2).
Proof.
  intros (Hmsg & Hchat & (thread & Hthread & -> & pair & Hin & Hid) & Hbot).
  destruct (proj2 (pbp_topic_ids_lookup cfg (str thread))) as [campaign Hc].
  { exists pair. unfold key_of. by rewrite Hid. }
  exists campaign. split; [done|].
  unfold track. rewrite Hmsg.
  assert (msg_truthy (Some msg) = true) as ->.
  { destruct msg as [[?|] [?|] [?|] [?|]]; simplify_eq/=; done. }
  simpl. rewrite Hchat, bool_decide_eq_true_2 by done. simpl.
  rewrite Hthread, Hc. unfold from_bot, sender_name in *.
  destruct (from msg) as [[b n]|]; simpl in *; rewrite ?Hbot;
    by destruct (utcnow w).
Qed.

(** An update changes the record of a topic only if it qualifies for it. *)
Lemma track_other cfg off st w u k :
  (∀ msg, ¬ qualifies cfg u k msg) →
  topics (state_of (track cfg (pbp_topic_ids cfg) (off, st, w) u)) !! k
  = topics st !! k.
Proof.
  intros Hno. unfold track.
  destruct (upd_message u) as [msg|] eqn:Hmsg; [|done].
  destruct (msg_truthy (Some msg)); [|done]. simpl.
  case_bool_decide as Hchat; [|done]. simpl.
  destruct (message_thread_id msg) as [thread|] eqn:Hthread; [|done].
  destruct (pbp_topic_ids cfg !! str thread) as [campaign|] eqn:Hc; [|done].
  destruct (default false (is_bot (default (User None None) (from msg))))
    eqn:Hbot; [done|].
  destruct (utcnow w) as [now w']. simpl.
  destruct (decide (str thread = k)) as [<-|Hne]; [|by rewrite lookup_insert_ne].
  destruct (Hno msg). split; [done|]. split; [done|]. split.
  - exists thread. split; [done|]. split; [done|].
    destruct (proj1 (pbp_topic_ids_lookup cfg (str thread)) _ Hc)
      as (pair & Hin & Hk & _).
    exists pair. split; [done|]. by apply (inj str).
  - unfold from_bot. by destruct (from msg).
Qed.

(** A message from a bot never changes a tracked record. *)
Lemma bot_message_ignored cfg off st w u msg :
  upd_message u = Some msg → from_bot msg = true →
  topics (state_of (track cfg (pbp_topic_ids cfg) (off, st, w) u)) = topics st.
Proof.
  intros Hmsg Hbot. apply map_eq. intros k. apply track_other.
  intros msg' (Hmsg' & _ & _ & Hbot'). congruence.
Qed.

Lemma foldl_track_other cfg us off st w k :
  (∀ u msg, u ∈ us → ¬ qualifies cfg u k msg) →
  topics (state_of (foldl (track cfg (pbp_topic_ids cfg)) (off, st, w) us)) !! k
  = topics st !! k.
Proof.
  revert off st w. induction us as [|u us IH]; intros off st w Hno; [done|].
  cbn [foldl].
  destruct (track cfg (pbp_topic_ids cfg) (off, st, w) u) as [[off' st'] w'] eqn:E.
  rewrite IH by (intros u' msg Hin; apply Hno; by apply elem_of_cons; right).
  change st' with (state_of (off', st', w')). rewrite <- E.
  apply track_other. intros msg. apply Hno, elem_of_cons. by left.
Qed.

(** C1. The offset returned by [process_updates] is the maximum of the
    previous offset (0 when the state has none) and one plus the largest
    update id of the batch; every update of the batch lies strictly below
    it, whether or not it was tracked: a batch in which no update passes the
    filters leaves [topics] alone and still advances the offset. *)
Theorem process_updates_offset updates cfg st w :
  let r := process_updates updates cfg st w in
  let off := new_offset_of r in
  let prev := default 0 (offset st) in
  off = match max_update_id updates with
        | None => prev
        | Some m => Z.max prev (m + 1)
        end
  ∧ prev ≤ off
  ∧ (∀ u, u ∈ updates → update_id u + 1 ≤ off)
  ∧ ((∀ u k msg, u ∈ updates → ¬ qualifies cfg u k msg) →
     topics (state_of r) = topics st).
Proof.
  intros r off prev. subst r off prev. unfold process_updates.
  rewrite foldl_track_offset, running_max_closed.
  split; [done|]. split; [|split].
  - destruct (max_update_id updates); lia.
  - intros u Hu. destruct (max_update_id_bound _ _ Hu) as (m & -> & ?). lia.
  - intros Hnone. apply map_eq. intros k. apply foldl_track_other.
    intros u msg Hu. by apply Hnone.
Qed.

(** C2 (amended). A qualifying update replaces the record of its topic by
    the instant at which the checker processes it (a reading of the wall
    clock, not the message's own date), the sender's first name
    (["Someone"] when it has none) and the campaign name the configuration
    gives for the topic id; nothing of the previous record survives.  In a
    batch, the last update that qualifies for a topic determines the record. *)
Theorem last_qualifying_update_wins pre u post cfg st w k msg :
  qualifies cfg u k msg →
  (∀ u' msg', u' ∈ post → ¬ qualifies cfg u' k msg') →
  let before := process_updates pre cfg st w in
  ∃ campaign pair,
    pair ∈ topic_pairs cfg ∧ key_of pair = k ∧ name pair = campaign
    ∧ topics (state_of (process_updates (pre ++ u :: post) cfg st w)) !! k
      = Some (TopicState (utcnow before.2).1 (Some (sender_name msg))
                         (Some campaign)).
Proof.
  intros Hq Hpost before. subst before. unfold process_updates.
  rewrite foldl_app. cbn [foldl].
  destruct (foldl (track cfg (pbp_topic_ids cfg)) (default 0 (offset st), st, w) pre)
    as [[off1 st1] w1].
  destruct (track_qualifying cfg off1 st1 w1 u k msg Hq) as (campaign & Hc & ->).
  destruct (proj1 (pbp_topic_ids_lookup cfg k) _ Hc) as (pair & Hin & Hk & Hn).
  exists campaign, pair. repeat (split; [done|]).
  rewrite foldl_track_other by done. simpl. apply lookup_insert_eq.
Qed.

(** ** The inactivity monitor *)

Lemma check_pair_unfold cfg ah now st log w pair :
  check_pair cfg ah now (st, log, w) pair
  = match decide_pair ah now st pair with
    | Skip reason => (st, log ++ [reason], w)
    | Attempt text =>
      let gid := group_id cfg in
      let tid := chat_topic_id pair in
      let r := send_message gid tid text w in
      if r.1
      then (State (offset st) (topics st)
                  (Some (<[key_of pair := now]> (alerts_of st))),
            log ++ [Sent gid tid text], r.2)
      else (st, log ++ [Failed gid tid text], r.2)
    end.
Proof.
  unfold check_pair, decide_pair, key_of, alerts_of.
  destruct (topics st !! str (pbp_topic_id pair)) as [ts|]; [|done].
  destruct (Qlt_le_dec _ _); [done|].
  destruct (default ∅ (last_alerts st) !! str (pbp_topic_id pair)) as [a|].
  - destruct (Qlt_le_dec _ _); [done|].
    cbn zeta. by destruct (send_message _ _ _ w) as [[] w'].
  - cbn zeta. by destruct (send_message _ _ _ w) as [[] w'].
Qed.

(** One iteration appends exactly one outcome, never touches [topics] or
    [offset], and changes [last_alerts] only by recording [now] for its own
    key after a successful send. *)
Lemma check_pair_step cfg ah now st log w pair :
  let r := check_pair cfg ah now (st, log, w) pair in
  topics (checked_state r) = topics st
  ∧ offset (checked_state r) = offset st
  ∧ ∃ o, log_of r = log ++ [o]
    ∧ (is_attempt o ↔ ∃ text, decide_pair ah now st pair = Attempt text)
    ∧ (is_sent o → alerts_of (checked_state r) = <[key_of pair := now]> (alerts_of st))
    ∧ (¬ is_sent o → checked_state r = st).
Proof.
  intros r. subst r. rewrite check_pair_unfold.
  destruct (decide_pair ah now st pair) as [reason|text] eqn:D.
  - repeat split; try done. exists reason. repeat split; try done.
    + intros Ho. unfold decide_pair in D.
      repeat case_match; simplify_eq/=; done.
    + intros [? [=]].
    + intros Ho. unfold decide_pair in D.
      repeat case_match; simplify_eq/=; done.
  - cbn zeta. destruct (send_message _ _ _ w) as [[] w']; simpl.
    + repeat split; try done. eexists. repeat split; eauto; done.
    + repeat split; try done. eexists. repeat split; eauto; done.
Qed.

Lemma check_and_alert_unfold cfg st w :
  check_and_alert cfg st w
  = monitor_loop cfg (alert_hours_of cfg) (utcnow w).1 (with_alerts st)
                 (utcnow w).2 (topic_pairs cfg).
Proof.
  unfold check_and_alert, monitor_loop, with_alerts, alerts_of, alert_hours_of.
  destruct (utcnow w) as [now w']. simpl.
  by destruct st as [o t [a|]].
Qed.

Lemma monitor_loop_snoc cfg ah now st w ps p :
  monitor_loop cfg ah now st w (ps ++ [p])
  = check_pair cfg ah now (monitor_loop cfg ah now st w ps) p.
Proof. unfold monitor_loop. apply foldl_snoc. Qed.

Lemma monitor_loop_frame cfg ah now st w ps :
  let r := monitor_loop cfg ah now st w ps in
  topics (checked_state r) = topics st
  ∧ offset (checked_state r) = offset st
  ∧ length (log_of r) = length ps.
Proof.
  induction ps as [|p ps IH] using rev_ind; [done|].
  rewrite monitor_loop_snoc. cbn zeta in *.
  destruct (monitor_loop cfg ah now st w ps) as [[st1 log1] w1].
  destruct (check_pair_step cfg ah now st1 log1 w1 p) as (Ht & Ho & o & Hl & _).
  destruct IH as (IHt & IHo & IHl). simpl in IHt, IHo, IHl.
  rewrite Ht, Ho, Hl, length_app, IHl, length_app. by rewrite IHt, IHo.
Qed.

(** Entries of [last_alerts] whose key belongs to none of the processed
    pairs keep their value. *)
Lemma monitor_loop_other_keys cfg ah now st w ps k :
  (∀ p, p ∈ ps → key_of p ≠ k) →
  alerts_of (checked_state (monitor_loop cfg ah now st w ps)) !! k
  = alerts_of st !! k.
Proof.
  induction ps as [|p ps IH] using rev_ind; [done|]. intros Hk.
  rewrite monitor_loop_snoc.
  rewrite <- IH by (intros q Hq; apply Hk, elem_of_app; by left).
  destruct (monitor_loop cfg ah now st w ps) as [[st1 log1] w1].
  destruct (check_pair_step cfg ah now st1 log1 w1 p)
    as (_ & _ & o & _ & _ & Hs & Hn).
  destruct o; try (rewrite Hn by (simpl; tauto); done).
  rewrite Hs by done. simpl. apply lookup_insert_ne.
  apply Hk, elem_of_app. right. by apply list_elem_of_singleton.
Qed.

(** Each entry of the log is the outcome of one iteration, run in a state
    that agrees with the initial one on [topics] and on every alert entry no
    earlier pair shares the key of. *)
Lemma monitor_loop_entry cfg ah now st w ps i pair o :
  ps !! i = Some pair →
  log_of (monitor_loop cfg ah now st w ps) !! i = Some o →
  ∃ sti logi wi,
    monitor_loop cfg ah now st w (take i ps) = (sti, logi, wi)
    ∧ log_of (check_pair cfg ah now (sti, logi, wi) pair) = logi ++ [o]
    ∧ length logi = i.
Proof.
  revert i pair o. induction ps as [|p ps IH] using rev_ind; [done|].
  intros i pair o Hi Ho. rewrite monitor_loop_snoc in Ho.
  destruct (monitor_loop_frame cfg ah now st w ps) as (_ & _ & Hlen).
  destruct (monitor_loop cfg ah now st w ps) as [[st1 log1] w1] eqn:E.
  simpl in Hlen.
  destruct (check_pair_step cfg ah now st1 log1 w1 p) as (_ & _ & o1 & Hl & _).
  destruct (decide (i < length ps)%nat) as [Hlt|Hge].
  - rewrite lookup_app_l in Hi by done.
    rewrite Hl, lookup_app_l in Ho by lia.
    rewrite take_app_le by lia.
    by apply (IH i pair o Hi).
  - assert (i = length ps) as ->.
    { apply lookup_lt_Some in Hi. rewrite length_app in Hi. simpl in Hi. lia. }
    rewrite list_lookup_middle in Hi by done. simplify_eq.
    rewrite take_app_length. exists st1, log1, w1. split; [done|].
    split; [|done]. rewrite Hl in Ho |- *.
    rewrite list_lookup_middle in Ho by done. by simplify_eq.
Qed.

(** *** Cooldown *)




(** *** Recording of alerts *)

Lemma monitor_loop_sent cfg ah now st w ps i pair o :
  ps !! i = Some pair →
  log_of (monitor_loop cfg ah now st w ps) !! i = Some o →
  is_sent o →
  alerts_of (checked_state (monitor_loop cfg ah now st w ps)) !! key_of pair
  = Some now.
Proof.
  revert i pair o. induction ps as [|p ps IH] using rev_ind; [done|].
  intros i pair o Hi Ho Hs. rewrite monitor_loop_snoc in Ho |- *.
  destruct (monitor_loop_frame cfg ah now st w ps) as (_ & _ & Hlen).
  destruct (monitor_loop cfg ah now st w ps) as [[st1 log1] w1].
  simpl in Hlen, IH.
  destruct (check_pair_step cfg ah now st1 log1 w1 p)
    as (_ & _ & o1 & Hl & _ & Hsent & Hnot).
  rewrite Hl in Ho.
  destruct (decide (i < length ps)%nat) as [Hlt|Hge].
  - rewrite lookup_app_l in Hi by lia. rewrite lookup_app_l in Ho by lia.
    pose proof (IH i pair o Hi Ho Hs) as IHk.
    destruct o1; try (rewrite Hnot by (simpl; tauto); done).
    rewrite Hsent by done.
    destruct (decide (key_of p = key_of pair)) as [->|Hne].
    + apply lookup_insert_eq.
    + by rewrite lookup_insert_ne.
  - assert (i = length ps) as ->.
    { apply lookup_lt_Some in Hi. rewrite length_app in Hi. simpl in Hi. lia. }
    rewrite list_lookup_middle in Hi by done.
    rewrite list_lookup_middle in Ho by done. simplify_eq.
    rewrite Hsent by done. apply lookup_insert_eq.
Qed.

Lemma monitor_loop_changed cfg ah now st w ps k :
  alerts_of (checked_state (monitor_loop cfg ah now st w ps)) !! k
    ≠ alerts_of st !! k →
  ∃ i pair o, ps !! i = Some pair ∧ key_of pair = k
    ∧ log_of (monitor_loop cfg ah now st w ps) !! i = Some o ∧ is_sent o.
Proof.
  induction ps as [|p ps IH] using rev_ind; [done|].
  rewrite monitor_loop_snoc.
  destruct (monitor_loop_frame cfg ah now st w ps) as (_ & _ & Hlen).
  destruct (monitor_loop cfg ah now st w ps) as [[st1 log1] w1].
  simpl in Hlen, IH.
  destruct (check_pair_step cfg ah now st1 log1 w1 p)
    as (_ & _ & o1 & Hl & _ & Hsent & Hnot).
  rewrite Hl. intros Hne.
  assert (alerts_of st1 !! k ≠ alerts_of st !! k →
          ∃ i pair o, (ps ++ [p]) !! i = Some pair ∧ key_of pair = k
            ∧ (log1 ++ [o1]) !! i = Some o ∧ is_sent o) as Hold.
  { intros Hc. destruct (IH Hc) as (i & pair & o & Hi & Hk & Ho & Hs).
    exists i, pair, o. pose proof (lookup_lt_Some _ _ _ Hi).
    rewrite !lookup_app_l by lia. done. }
  destruct (decide (is_sent o1 ∧ key_of p = k)) as [[Hs Hk]|Hno].
  - exists (length ps), p, o1.
    rewrite list_lookup_middle by done.
    rewrite list_lookup_middle by done. done.
  - apply Hold. intros Heq. apply Hne. rewrite <- Heq.
    destruct o1; try (rewrite Hnot by (simpl; tauto); done).
    rewrite Hsent by done. apply lookup_insert_ne. simpl in Hno. tauto.
Qed.

Lemma monitor_loop_no_send cfg ah now st w ps :
  (∀ o, o ∈ log_of (monitor_loop cfg ah now st w ps) → ¬ is_sent o) →
  checked_state (monitor_loop cfg ah now st w ps) = st.
Proof.
  induction ps as [|p ps IH] using rev_ind; [done|].
  rewrite monitor_loop_snoc.
  destruct (monitor_loop cfg ah now st w ps) as [[st1 log1] w1]. simpl in IH.
  destruct (check_pair_step cfg ah now st1 log1 w1 p)
    as (_ & _ & o1 & Hl & _ & _ & Hnot).
  rewrite Hl. intros Hall. rewrite Hnot.
  - apply IH. intros o Ho. apply Hall, elem_of_app. by left.
  - apply Hall, elem_of_app. right. by apply list_elem_of_singleton.
Qed.


(** *** Retrying after a failure *)

Lemma hours_between_mono now now' t :
  now ≤ now' → (hours_between now t <= hours_between now' t)%Q.
Proof. intros Hle. unfold hours_between, Qle. simpl. lia. Qed.

Lemma decide_pair_ext ah now st st' p :
  topics st !! key_of p = topics st' !! key_of p →
  alerts_of st !! key_of p = alerts_of st' !! key_of p →
  decide_pair ah now st p = decide_pair ah now st' p.
Proof. intros Ht Ha. unfold decide_pair. by rewrite Ht, Ha. Qed.

Lemma decide_pair_later ah now now' st p text :
  decide_pair ah now st p = Attempt text → now ≤ now' →
  ∃ text', decide_pair ah now' st p = Attempt text'.
Proof.
  unfold decide_pair. intros Hd Hle.
  destruct (topics st !! key_of p) as [ts|]; [|done].
  destruct (Qlt_le_dec (hours_between now _) ah) as [|H1]; [done|].
  destruct (Qlt_le_dec (hours_between now' _) ah) as [H1'|_].
  { destruct (Qlt_not_le _ _ H1'). eapply Qle_trans; [exact H1|].
    by apply hours_between_mono. }
  destruct (alerts_of st !! key_of p) as [a|]; [|by eexists].
  destruct (Qlt_le_dec (hours_between now a) ah) as [|H2]; [done|].
  destruct (Qlt_le_dec (hours_between now' a) ah) as [H2'|_]; [|by eexists].
  destruct (Qlt_not_le _ _ H2'). eapply Qle_trans; [exact H2|].
  by apply hours_between_mono.
Qed.

Lemma reached_step cfg st w i pair :
  topic_pairs cfg !! i = Some pair →
  reached cfg st w (S i)
  = check_pair cfg (alert_hours_of cfg) (utcnow w).1 (reached cfg st w i) pair.
Proof.
  intros Hi. unfold reached.
  rewrite (take_S_r _ _ _ Hi). apply monitor_loop_snoc.
Qed.

Lemma reached_rest cfg st w i :
  check_and_alert cfg st w
  = foldl (check_pair cfg (alert_hours_of cfg) (utcnow w).1)
          (reached cfg st w i) (drop i (topic_pairs cfg)).
Proof.
  rewrite check_and_alert_unfold. unfold reached, monitor_loop.
  by rewrite <- foldl_app, take_drop.
Qed.

(** What the loop has when it reaches a pair whose topic no earlier pair
    has: the records, and the topic's alert entry, are those it started
    with, so it decides as it would have at the start. *)
Lemma reached_decides cfg st w i pair :
  topic_pairs cfg !! i = Some pair →
  (∀ j p, (j < i)%nat → topic_pairs cfg !! j = Some p →
          key_of p ≠ key_of pair) →
  ∀ now', decide_pair (alert_hours_of cfg) now' (checked_state (reached cfg st w i)) pair
  = decide_pair (alert_hours_of cfg) now' (with_alerts st) pair.
Proof.
  intros Hi Hfirst now'. apply decide_pair_ext.
  - unfold reached.
    destruct (monitor_loop_frame cfg (alert_hours_of cfg) (utcnow w).1
                (with_alerts st) (utcnow w).2 (take i (topic_pairs cfg)))
      as (Ht & _). by rewrite Ht.
  - unfold reached. apply monitor_loop_other_keys.
    intros q Hq Hk. apply list_elem_of_lookup in Hq as [j Hj].
    pose proof (lookup_lt_Some _ _ _ Hj) as Hlt. rewrite length_take in Hlt.
    rewrite lookup_take_lt in Hj by lia.
    by apply (Hfirst j q); [lia|..].
Qed.

(** The outcome logged for a pair is the outcome of its iteration. *)
Lemma reached_log cfg st w i pair :
  topic_pairs cfg !! i = Some pair →
  log_of (check_and_alert cfg st w) !! i
  = last (log_of (reached cfg st w (S i))).
Proof.
  intros Hi. rewrite check_and_alert_unfold.
  set (ah := alert_hours_of cfg). set (now := (utcnow w).1).
  set (w1 := (utcnow w).2). set (st0 := with_alerts st).
  destruct (monitor_loop_frame cfg ah now st0 w1 (topic_pairs cfg))
    as (_ & _ & Hlen).
  destruct (lookup_lt_is_Some_2
              (log_of (monitor_loop cfg ah now st0 w1 (topic_pairs cfg))) i)
    as [o Ho].
  { rewrite Hlen. by eapply lookup_lt_Some. }
  rewrite Ho.
  destruct (monitor_loop_entry _ _ _ _ _ _ _ _ _ Hi Ho)
    as (sti & logi & wi & Ei & Hstep & _).
  rewrite (reached_step cfg st w i pair Hi). unfold reached.
  fold ah now w1 st0. rewrite Ei, Hstep. by rewrite last_snoc.
Qed.

(** One pair of a run, for a topic that no other pair refers to, told by
    the decision at the start of the run and the answer of the transport. *)
Lemma check_and_alert_pair cfg st w i pair :
  let now := (utcnow w).1 in
  let ah := alert_hours_of cfg in
  let r := check_and_alert cfg st w in
  let k := key_of pair in
  topic_pairs cfg !! i = Some pair →
  only_pair_of_topic cfg i pair →
  match decide_pair ah now (with_alerts st) pair with
  | Skip reason =>
      world_of (reached cfg st w (S i)) = world_of (reached cfg st w i)
      ∧ log_of r !! i = Some reason
      ∧ alerts_of (checked_state r) !! k = alerts_of st !! k
  | Attempt text =>
      let answer := send_message (group_id cfg) (chat_topic_id pair) text
                                 (world_of (reached cfg st w i)) in
      world_of (reached cfg st w (S i)) = answer.2
      ∧ if answer.1
        then log_of r !! i
             = Some (Sent (group_id cfg) (chat_topic_id pair) text)
             ∧ alerts_of (checked_state r) !! k = Some now
        else log_of r !! i
             = Some (Failed (group_id cfg) (chat_topic_id pair) text)
             ∧ alerts_of (checked_state r) !! k = alerts_of st !! k
  end.
Proof.
  intros now ah r k Hi Honly.
  assert (∀ j p, (j < i)%nat → topic_pairs cfg !! j = Some p →
                 key_of p ≠ key_of pair) as Hfirst.
  { intros j p Hj Hp Hk. specialize (Honly j p Hp Hk). lia. }
  pose proof (reached_decides cfg st w i pair Hi Hfirst now) as Hdec.
  pose proof (reached_log cfg st w i pair Hi) as Hlog. fold r in Hlog.
  pose proof (reached_step cfg st w i pair Hi) as Hstep. fold now ah in Hstep.
  fold ah in Hdec.
  destruct (reached cfg st w i) as [[sti logi] wi] eqn:Ei.
  rewrite check_pair_unfold in Hstep. cbn [checked_state fst] in Hdec.
  rewrite Hdec in Hstep.
  (* an entry that no successful send touched keeps its value *)
  assert (¬ (∃ o, log_of r !! i = Some o ∧ is_sent o) →
          alerts_of (checked_state r) !! k = alerts_of st !! k) as Hkeep.
  { intros Hno.
    destruct (decide (alerts_of (checked_state r) !! k = alerts_of st !! k))
      as [|Hne]; [done|]. exfalso. subst r.
    rewrite check_and_alert_unfold in Hne, Hno.
    destruct (monitor_loop_changed cfg ah now (with_alerts st) (utcnow w).2
                (topic_pairs cfg) k Hne) as (j & q & o & Hj & Hk & Hoj & Hs).
    rewrite (Honly j q Hj Hk) in Hoj. apply Hno. by exists o. }
  destruct (decide_pair ah now (with_alerts st) pair) as [reason|text] eqn:D.
  - rewrite Hstep in Hlog |- *. cbn [world_of snd log_of fst] in *.
    rewrite last_snoc in Hlog. split; [done|]. split; [done|].
    apply Hkeep. intros (o & Ho & Hs). rewrite Hlog in Ho. simplify_eq.
    unfold decide_pair in D. repeat case_match; simplify_eq/=; done.
  - cbn zeta in Hstep |- *. cbn [world_of snd].
    destruct (send_message (group_id cfg) (chat_topic_id pair) text wi)
      as [[] w'] eqn:Es; cbn [fst snd] in *.
    + rewrite Hstep in Hlog |- *. cbn [world_of snd log_of fst] in *.
      rewrite last_snoc in Hlog. split; [done|]. split; [done|].
      subst r. rewrite check_and_alert_unfold in Hlog |- *.
      by eapply monitor_loop_sent.
    + rewrite Hstep in Hlog |- *. cbn [world_of snd log_of fst] in *.
      rewrite last_snoc in Hlog. split; [done|]. split; [done|].
      apply Hkeep. intros (o & Ho & Hs). rewrite Hlog in Ho. by simplify_eq.
Qed.

(** A send logged as successful was accepted by the transport. *)
Lemma reached_sent cfg st w i pair o :
  topic_pairs cfg !! i = Some pair →
  log_of (check_and_alert cfg st w) !! i = Some o →
  is_sent o →
  ∃ text,
    decide_pair (alert_hours_of cfg) (utcnow w).1
                (checked_state (reached cfg st w i)) pair = Attempt text
    ∧ (send_message (group_id cfg) (chat_topic_id pair) text
                    (world_of (reached cfg st w i))).1 = true.
Proof.
  intros Hi Ho Hs. rewrite (reached_log cfg st w i pair Hi) in Ho.
  rewrite (reached_step cfg st w i pair Hi) in Ho.
  destruct (reached cfg st w i) as [[sti logi] wi].
  rewrite check_pair_unfold in Ho. cbn [checked_state world_of fst snd].
  destruct (decide_pair _ _ sti pair) as [reason|text] eqn:D.
  - cbn [log_of fst snd] in Ho. rewrite last_snoc in Ho. simplify_eq.
    unfold decide_pair in D. repeat case_match; simplify_eq/=; done.
  - exists text. split; [done|]. cbn zeta in Ho.
    destruct (send_message _ _ text wi) as [[] w']; [done|].
    cbn [log_of fst snd] in Ho. rewrite last_snoc in Ho. by simplify_eq.
Qed.

(** C6. The entry of a topic in [last_alerts] is set to the current
    instant exactly when the transport accepts the alert.  For a pair whose
    topic no other pair refers to: when the pair is skipped the transport is
    not called and the entry keeps its value; when an alert is due the
    transport is called once, with the world the earlier pairs have left,
    and the entry is the current instant if the answer is [True] and keeps
    its value if it is [False].  An entry that differs after the run is the
    current instant and comes from a send that the transport accepted; a run
    in which the transport accepted nothing leaves the state as it was.
    After a refused send, a later run on the resulting state decides again
    that the alert is due and calls the transport again. *)
Theorem alert_recorded_iff_sent cfg st w :
  let now := (utcnow w).1 in
  let ah := alert_hours_of cfg in
  let r := check_and_alert cfg st w in
  (∀ i, r = foldl (check_pair cfg ah now) (reached cfg st w i)
                  (drop i (topic_pairs cfg)))
  ∧ (∀ i pair,
       topic_pairs cfg !! i = Some pair →
       only_pair_of_topic cfg i pair →
       match decide_pair ah now (with_alerts st) pair with
       | Skip reason =>
           world_of (reached cfg st w (S i)) = world_of (reached cfg st w i)
           ∧ log_of r !! i = Some reason
           ∧ alerts_of (checked_state r) !! key_of pair
             = alerts_of st !! key_of pair
       | Attempt text =>
           let answer := send_message (group_id cfg) (chat_topic_id pair) text
                                      (world_of (reached cfg st w i)) in
           world_of (reached cfg st w (S i)) = answer.2
           ∧ if answer.1
             then log_of r !! i
                  = Some (Sent (group_id cfg) (chat_topic_id pair) text)
                  ∧ alerts_of (checked_state r) !! key_of pair = Some now
             else log_of r !! i
                  = Some (Failed (group_id cfg) (chat_topic_id pair) text)
                  ∧ alerts_of (checked_state r) !! key_of pair
                    = alerts_of st !! key_of pair
       end)
  ∧ (∀ k, alerts_of (checked_state r) !! k ≠ alerts_of st !! k →
       alerts_of (checked_state r) !! k = Some now
       ∧ ∃ i pair text,
           topic_pairs cfg !! i = Some pair ∧ key_of pair = k
           ∧ decide_pair ah now (checked_state (reached cfg st w i)) pair
             = Attempt text
           ∧ (send_message (group_id cfg) (chat_topic_id pair) text
                           (world_of (reached cfg st w i))).1 = true)
  ∧ ((∀ i pair text,
        topic_pairs cfg !! i = Some pair →
        decide_pair ah now (checked_state (reached cfg st w i)) pair
        = Attempt text →
        (send_message (group_id cfg) (chat_topic_id pair) text
                      (world_of (reached cfg st w i))).1 = false) →
     checked_state r = with_alerts st)
  ∧ (∀ i pair text w2,
       topic_pairs cfg !! i = Some pair →
       only_pair_of_topic cfg i pair →
       decide_pair ah now (with_alerts st) pair = Attempt text →
       (send_message (group_id cfg) (chat_topic_id pair) text
                     (world_of (reached cfg st w i))).1 = false →
       now ≤ (utcnow w2).1 →
       alerts_of (checked_state r) !! key_of pair = alerts_of st !! key_of pair
       ∧ ∃ text2,
           decide_pair ah (utcnow w2).1 (with_alerts (checked_state r)) pair
           = Attempt text2
           ∧ world_of (reached cfg (checked_state r) w2 (S i))
             = (send_message (group_id cfg) (chat_topic_id pair) text2
                  (world_of (reached cfg (checked_state r) w2 i))).2).
Proof.
  intros now ah r.
  split; [intros i; apply reached_rest|].
  split; [intros i pair; apply check_and_alert_pair|].
  split; [|split].
  - intros k Hne. subst now ah r. split.
    + rewrite check_and_alert_unfold in Hne |- *.
      destruct (monitor_loop_changed _ _ _ _ _ _ k Hne)
        as (i & pair & o & Hi & Hk & Ho & Hs).
      rewrite <- Hk. by eapply monitor_loop_sent.
    + pose proof Hne as Hne'. rewrite check_and_alert_unfold in Hne'.
      destruct (monitor_loop_changed _ _ _ _ _ _ k Hne')
        as (i & pair & o & Hi & Hk & Ho & Hs).
      rewrite <- check_and_alert_unfold in Ho.
      destruct (reached_sent cfg st w i pair o Hi Ho Hs) as (text & Hd & Ha).
      by exists i, pair, text.
  - intros Hfail. subst now ah r. rewrite check_and_alert_unfold.
    apply monitor_loop_no_send. intros o Ho Hs.
    apply list_elem_of_lookup in Ho as [i Ho].
    destruct (monitor_loop_frame cfg (alert_hours_of cfg) (utcnow w).1
                (with_alerts st) (utcnow w).2 (topic_pairs cfg))
      as (_ & _ & Hlen).
    destruct (lookup_lt_is_Some_2 (topic_pairs cfg) i) as [pair Hi].
    { rewrite <- Hlen. by eapply lookup_lt_Some. }
    rewrite <- check_and_alert_unfold in Ho.
    destruct (reached_sent cfg st w i pair o Hi Ho Hs) as (text & Hd & Ha).
    rewrite (Hfail i pair text Hi Hd) in Ha. done.
  - intros i pair text w2 Hi Honly Hd Hfalse Hle. subst now ah r.
    pose proof (check_and_alert_pair cfg st w i pair Hi Honly) as Hrun.
    cbn zeta in Hrun. rewrite Hd in Hrun.
    rewrite Hfalse in Hrun. destruct Hrun as (_ & _ & Hkeep).
    split; [done|].
    (* the state after the run decides as the state before it *)
    assert (decide_pair (alert_hours_of cfg) (utcnow w).1
              (with_alerts (checked_state (check_and_alert cfg st w))) pair
            = Attempt text) as Hd1.
    { rewrite <- Hd. apply decide_pair_ext; [|exact Hkeep].
      unfold with_alerts at 1. cbn [topics].
      rewrite check_and_alert_unfold.
      destruct (monitor_loop_frame cfg (alert_hours_of cfg) (utcnow w).1
                  (with_alerts st) (utcnow w).2 (topic_pairs cfg))
        as (Ht & _). by rewrite Ht. }
    destruct (decide_pair_later _ _ (utcnow w2).1 _ pair text Hd1 Hle)
      as [text2 Hd2].
    exists text2. split; [done|].
    pose proof (check_and_alert_pair cfg
                  (checked_state (check_and_alert cfg st w)) w2 i pair
                  Hi Honly) as Hrun2.
    cbn zeta in Hrun2. rewrite Hd2 in Hrun2.
    by destruct Hrun2 as [Hw _].
Qed.

(** *** The alert text *)






(** *** Frame conditions *)

(** C10. [check_and_alert] leaves [topics] and the stored [offset] as they
    were; [process_updates] leaves [last_alerts] and the stored [offset] as
    they were and hands the new offset back as a value, which [main] then
    stores. *)
Theorem frame_conditions cfg st w updates :
  (topics (checked_state (check_and_alert cfg st w)) = topics st
   ∧ offset (checked_state (check_and_alert cfg st w)) = offset st)
  ∧ (last_alerts (state_of (process_updates updates cfg st w)) = last_alerts st
     ∧ offset (state_of (process_updates updates cfg st w)) = offset st)
  ∧ offset (checked_state (main_body cfg st updates w))
    = match updates with
      | [] => offset st
      | _ => Some (new_offset_of (process_updates updates cfg st w))
      end.
Proof.
  assert (∀ st w, topics (checked_state (check_and_alert cfg st w)) = topics st
     ∧ offset (checked_state (check_and_alert cfg st w)) = offset st) as Hmon.
  { intros st' w'. rewrite check_and_alert_unfold.
    destruct (monitor_loop_frame cfg (alert_hours_of cfg) (utcnow w').1
                (with_alerts st') (utcnow w').2 (topic_pairs cfg)) as (? & ? & _).
    done. }
  split; [apply Hmon|]. split.
  - unfold process_updates.
    destruct (foldl_track_frame cfg (pbp_topic_ids cfg) updates
                (default 0 (offset st)) st w) as [-> ->]. done.
  - unfold main_body. destruct updates as [|u us]; [apply Hmon|].
    destruct (process_updates (u :: us) cfg st w) as [[off st1] w1].
    destruct (Hmon (State (Some off) (topics st1) (last_alerts st1)) w1) as [_ ->].
    done.
Qed.

End checker_facts.

(** ** Concrete runs of the checker *)

Section checker_runs.
Import Checker CheckerSpec CheckerScenario.

(** The message of update 5 is dated 100 but processed when the clock reads
    200: the record keeps 200. *)
Lemma processing_time_recorded :
  topics (state_of (process_updates [Update 5 (Some from_al)] cfg quiet
                                    (at_time 200 true))) !! "7"
  = Some (TopicState 200 (Some "Al") (Some "Alpha")).
Proof. vm_compute. reflexivity. Qed.

Lemma from_al_qualifies : qualifies cfg (Update 5 (Some from_al)) "7" from_al.
Proof.
  split; [done|]. split; [done|]. split; [|done].
  exists 7. split; [done|]. split; [done|].
  exists alpha. split; [|done]. apply list_elem_of_here.
Qed.

(** C2, counterexample: the record does not carry the message's own
    timestamp. *)
Lemma message_timestamp_not_recorded : ¬ records_message_timestamp.
Proof.
  intros Hclaim.
  destruct (Hclaim script _ cfg quiet (at_time 200 true)
              (Update 5 (Some from_al)) "7" from_al 100
              from_al_qualifies eq_refl) as (ts & Hts & Htime).
  rewrite processing_time_recorded in Hts. by simplify_eq.
Qed.

(** A batch of an update without message and a bot's message: nothing is
    tracked and the offset moves past both. *)
Lemma process_updates_offset_witness :
  let updates := [Update 3 None; Update 11 (Some from_bot_user)] in
  let r := process_updates updates cfg quiet (at_time 200 true) in
  (∀ u k msg, u ∈ updates → ¬ qualifies cfg u k msg)
  ∧ (new_offset_of r = match max_update_id updates with
                       | None => default 0 (offset quiet)
                       | Some m => Z.max (default 0 (offset quiet)) (m + 1)
                       end
     ∧ default 0 (offset quiet) ≤ new_offset_of r
     ∧ (∀ u, u ∈ updates → update_id u + 1 ≤ new_offset_of r)
     ∧ ((∀ u k msg, u ∈ updates → ¬ qualifies cfg u k msg) →
        topics (state_of r) = topics quiet))
  ∧ new_offset_of r = 12
  ∧ topics (state_of r) = topics quiet.
Proof.
  intros updates r.
  assert (∀ u k msg, u ∈ updates → ¬ qualifies cfg u k msg) as Hnone.
  { intros u k msg Hu (Hmsg & _ & _ & Hbot).
    apply elem_of_cons in Hu as [->|Hu]; [done|].
    apply list_elem_of_singleton in Hu as ->. simpl in Hmsg. by simplify_eq. }
  pose proof (process_updates_offset updates cfg quiet (at_time 200 true)) as Hspec.
  split; [exact Hnone|]. split; [exact Hspec|].
  split; [reflexivity|]. exact (proj2 (proj2 (proj2 Hspec)) Hnone).
Defined.

Lemma last_qualifying_update_wins_witness :
  qualifies cfg (Update 5 (Some from_al)) "7" from_al
  ∧ (∀ u' msg', u' ∈ [Update 6 (Some from_bot_user)] →
       ¬ qualifies cfg u' "7" msg')
  ∧ ∃ campaign pair,
      pair ∈ topic_pairs cfg ∧ key_of pair = "7" ∧ name pair = campaign
      ∧ topics (state_of (process_updates
                  ([Update 3 None] ++ Update 5 (Some from_al)
                     :: [Update 6 (Some from_bot_user)])
                  cfg quiet (at_time 200 true))) !! "7"
        = Some (TopicState
                  (utcnow (process_updates [Update 3 None] cfg quiet
                             (at_time 200 true)).2).1
                  (Some (sender_name from_al)) (Some campaign)).
Proof.
  assert (∀ u' msg', u' ∈ [Update 6 (Some from_bot_user)] →
            ¬ qualifies cfg u' "7" msg') as Hpost.
  { intros u' msg' Hin (Hmsg & _ & _ & Hbot).
    apply list_elem_of_singleton in Hin as ->.
    simpl in Hmsg. by simplify_eq. }
  split; [exact from_al_qualifies|]. split; [exact Hpost|].
  exact (last_qualifying_update_wins [Update 3 None] (Update 5 (Some from_al))
           [Update 6 (Some from_bot_user)] cfg quiet (at_time 200 true) "7"
           from_al from_al_qualifies Hpost).
Defined.


(** Five hours after Bob's post: when the transport accepts the alert the
    instant is recorded; when it refuses, the entry stays absent and a run
    one hour later calls the transport again. *)
Lemma alert_recorded_iff_sent_witness :
  let ok := at_time (5 * hour) true in
  let w := at_time (5 * hour) false in
  let w2 := at_time (6 * hour) true in
  let text := alert_text "Alpha" (hours_between (5 * hour) 0)
                (TopicState 0 (Some "Bob") (Some "Alpha")) in
  let refused := checked_state (check_and_alert cfg quiet w) in
  (topic_pairs cfg !! 0%nat = Some alpha
   ∧ only_pair_of_topic cfg 0 alpha
   ∧ decide_pair (alert_hours_of cfg) (utcnow w).1 (with_alerts quiet) alpha
     = Attempt text
   ∧ (send_message (group_id cfg) (chat_topic_id alpha) text
                   (world_of (reached cfg quiet w 0))).1 = false
   ∧ (utcnow w).1 ≤ (utcnow w2).1)
  ∧ alerts_of (checked_state (check_and_alert cfg quiet ok)) !! key_of alpha
    = Some (5 * hour)
  ∧ alerts_of refused !! key_of alpha = alerts_of quiet !! key_of alpha
  ∧ ∃ text2,
      decide_pair (alert_hours_of cfg) (utcnow w2).1 (with_alerts refused) alpha
      = Attempt text2
      ∧ world_of (reached cfg refused w2 1)
        = (send_message (group_id cfg) (chat_topic_id alpha) text2
             (world_of (reached cfg refused w2 0))).2.
Proof.
  intros ok w w2 text refused.
  assert (topic_pairs cfg !! 0%nat = Some alpha) as H1 by reflexivity.
  assert (only_pair_of_topic cfg 0 alpha) as H2.
  { intros [|j] p Hj _; [done|]. by destruct j. }
  assert (decide_pair (alert_hours_of cfg) (utcnow w).1 (with_alerts quiet) alpha
          = Attempt text) as H3 by (vm_compute; reflexivity).
  assert ((send_message (group_id cfg) (chat_topic_id alpha) text
                        (world_of (reached cfg quiet w 0))).1 = false) as H4
    by (vm_compute; reflexivity).
  assert ((utcnow w).1 ≤ (utcnow w2).1) as H5 by (vm_compute; discriminate).
  split; [done|]. split.
  - pose proof (proj1 (proj2 (alert_recorded_iff_sent cfg quiet ok))
                  0%nat alpha H1 H2) as Hok.
    assert (decide_pair (alert_hours_of cfg) (utcnow ok).1 (with_alerts quiet)
              alpha = Attempt text) as D by (vm_compute; reflexivity).
    rewrite D in Hok. cbn zeta in Hok.
    assert ((send_message (group_id cfg) (chat_topic_id alpha) text
                          (world_of (reached cfg quiet ok 0))).1 = true) as A
      by (vm_compute; reflexivity).
    rewrite A in Hok. exact (proj2 (proj2 Hok)).
  - exact (proj2 (proj2 (proj2 (proj2 (alert_recorded_iff_sent cfg quiet w))))
             0%nat alpha text w2 H1 H2 H3 H4 H5).
Defined.


(** The two scenarios of the specification, evaluated. *)
Lemma alert_after_five_hours :
  log_of (check_and_alert cfg quiet (at_time (5 * hour) true))
  = [Sent (-1001) 8 ("No new posts in Alpha PBP for 5h." +:+ nl
                     +:+ "Last post was from Bob.")].
Proof. vm_compute. reflexivity. Qed.

Lemma alert_after_thirty_hours :
  log_of (check_and_alert cfg quiet (at_time (30 * hour) true))
  = [Sent (-1001) 8 ("No new posts in Alpha PBP for 1d 6h." +:+ nl
                     +:+ "Last post was from Bob.")].
Proof. vm_compute. reflexivity. Qed.

End checker_runs.

(** * Properties of the importer *)

Section importer_text_and_media.
Import Importer ImporterSpec.
Implicit Types (msg : message).

Lemma concat_chunk_text pieces :
  concat_str (pieces ≫= chunk_text) = mixed_text pieces.
Proof.
  induction pieces as [|[s|ty [t|]|] pieces IH]; [done|..];
    cbn [mbind list_bind chunk_text app concat_str foldr mixed_text default
         from_option Datatypes.id];
    change (foldr String.append "" (pieces ≫= chunk_text))
      with (concat_str (pieces ≫= chunk_text));
    rewrite ?IH; done.
Qed.

Lemma concat_entity_text spans :
  concat_str (spans ≫= entity_text) = spans_text spans.
Proof.
  induction spans as [|[s|ty [t|]|] spans IH]; [done|..];
    cbn [mbind list_bind entity_text app concat_str foldr spans_text default
         from_option Datatypes.id];
    change (foldr String.append "" (spans ≫= entity_text))
      with (concat_str (spans ≫= entity_text));
    rewrite ?IH; done.
Qed.

(** C7. [extract_text] reads the text in three encodings, in this order: a
    plain string, a list of plain strings and tagged spans concatenated in
    order without their tags, and the [text_entities] list; the first
    reading that is not empty after stripping is returned, and [""] if none
    is.  [{"text": "hi"}] gives ["hi"], a list of ["a "] and a bold ["b"]
    gives ["a b"], and [{}] gives [""].  The side list is read when the
    text is empty or white space only (a no-break space counts as white
    space), and not when the text has a reading. *)
Theorem extract_text_precedence msg :
  extract_text msg
  = first_nonempty [plain_reading msg; mixed_reading msg; entities_reading msg]
  ∧ extract_text (only_text (TextStr "hi")) = "hi"
  ∧ extract_text
      (only_text (TextList [ChunkStr "a "; ChunkDict (Some "bold") (Some "b")]))
    = "a b"
  ∧ extract_text no_keys = ""
  ∧ extract_text
      (text_and_entities (TextStr "")
         [ChunkDict (Some "plain") (Some "side ");
          ChunkDict (Some "bold") (Some "note")])
    = "side note"
  ∧ extract_text
      (text_and_entities (TextList [ChunkStr " "; ChunkDict (Some "italic") None])
         [ChunkStr "skipped"; ChunkDict None (Some " side ")])
    = "side"
  ∧ extract_text
      (text_and_entities (TextStr "first") [ChunkDict None (Some "second")])
    = "first"
  ∧ extract_text
      (text_and_entities (TextList [ChunkDict (Some "bold") (Some "first")])
         [ChunkDict None (Some "second")])
    = "first"
  ∧ extract_text (only_text (TextStr (nbsp +:+ "hi " +:+ nbsp))) = "hi"
  ∧ extract_text
      (text_and_entities (TextStr nbsp) [ChunkDict None (Some "second")])
    = "second".
Proof.
  split; [|by vm_compute].
  unfold extract_text, plain_reading, mixed_reading, entities_reading.
  destruct (text_entities msg) as [[|e es]|];
    destruct (text msg) as [[s|[|c cs]|]|];
    cbn [default from_option Datatypes.id first_nonempty];
    change (strip (spans_text [])) with "";
    change (strip (mixed_text [])) with "";
    rewrite <- ?concat_entity_text, <- ?concat_chunk_text;
    change (strip "") with "";
    repeat match goal with
           | |- context [strip ?x] => destruct (strip x)
           end;
    done.
Qed.

(** The repository's own sticker test expects a tag for a message that only
    carries ["sticker_emoji"]; [detect_media] looks at ["media_type"] and
    finds no marker there. *)
Lemma sticker_emoji_alone_untagged emoji :
  detect_media
    (Message None None None None None None None None None None None
             (Some emoji) None None) = None.
Proof. done. Qed.

(** C8. [detect_media] yields at most one tag, chosen in a fixed order:
    the media type decides first (animation, video file, voice message,
    video message, sticker with its emoji or ["?"]), then a photo reference,
    then a file reference when no media type is present; otherwise there is
    no tag.  [{"media_type": "animation"}] gives ["gif"],
    [{"photo": "x.jpg"}] gives ["image"], a message with neither gives
    [None]. *)
Theorem detect_media_precedence msg :
  (media_type msg = Some "animation" → detect_media msg = Some "gif")
  ∧ (media_type msg = Some "video_file" → detect_media msg = Some "video")
  ∧ (media_type msg = Some "voice_message" →
     detect_media msg = Some "voice message")
  ∧ (media_type msg = Some "video_message" →
     detect_media msg = Some "video note")
  ∧ (media_type msg = Some "sticker" →
     detect_media msg = Some ("sticker:" +:+ default "?" (sticker_emoji msg)))
  ∧ (¬ marked msg → truthy (photo msg) = true → detect_media msg = Some "image")
  ∧ (¬ marked msg → truthy (photo msg) = false →
     truthy (media_type msg) = false →
     ∀ path, file msg = Some path → path ≠ "" →
     detect_media msg = Some ("document:" +:+ basename path))
  ∧ (¬ marked msg → truthy (photo msg) = false →
     (truthy (file msg) = false ∨ truthy (media_type msg) = true) →
     detect_media msg = None)
  ∧ detect_media (only_media_type "animation") = Some "gif"
  ∧ detect_media (only_photo "x.jpg") = Some "image"
  ∧ detect_media no_keys = None.
Proof.
  assert (¬ marked msg →
          detect_media msg
          = if truthy (photo msg) then Some "image"
            else if truthy (file msg) && negb (truthy (media_type msg))
            then Some ("document:" +:+ basename (default "" (file msg)))
            else None) as Hrest.
  { intros Hno. unfold detect_media.
    repeat (case_bool_decide;
            [exfalso; apply Hno; eexists; split; [eassumption|];
             unfold media_markers; set_solver|]).
    done. }
  repeat split; try (by vm_compute);
    try (intros Hm; unfold detect_media; rewrite Hm; done).
  - intros Hno Hp. by rewrite Hrest, Hp.
  - intros Hno Hp Hm path Hf Hne. rewrite Hrest, Hp, Hf, Hm by done.
    by destruct path.
  - intros Hno Hp [Hf|Hm]; rewrite Hrest, Hp by done.
    + by rewrite Hf.
    + rewrite Hm. by destruct (truthy (file msg)).
Qed.

(** A sticker with a photo and a file attached is tagged as a sticker; a
    bare file reference is tagged with its base name. *)
Lemma detect_media_precedence_witness :
  let sticker :=
    Message None None None None None None None None None None (Some "sticker")
            (Some "!") (Some "thumb.jpg") (Some "stickers/a.webp") in
  let doc :=
    Message None None None None None None None None None None None None None
            (Some "files/notes.pdf") in
  (media_type sticker = Some "sticker"
   ∧ detect_media sticker = Some ("sticker:" +:+ default "?" (sticker_emoji sticker)))
  ∧ ((¬ marked doc ∧ truthy (photo doc) = false ∧ truthy (media_type doc) = false
      ∧ file doc = Some "files/notes.pdf" ∧ "files/notes.pdf" ≠ "")
     ∧ detect_media doc = Some ("document:" +:+ basename "files/notes.pdf"))
  ∧ detect_media doc = Some "document:notes.pdf".
Proof.
  intros sticker doc.
  assert (¬ marked doc) as Hdoc by (by intros (m & Hm & _)).
  split; [|split; [|by vm_compute]].
  - split; [reflexivity|].
    exact (proj1 (proj2 (proj2 (proj2 (proj2 (detect_media_precedence sticker)))))
             eq_refl).
  - split; [repeat split; done|].
    exact (proj1 (proj2 (proj2 (proj2 (proj2 (proj2 (proj2
             (detect_media_precedence doc)))))))
             Hdoc eq_refl eq_refl "files/notes.pdf" eq_refl ltac:(done)).
Defined.

End importer_text_and_media.


(** ** The importer's files *)

Section importer_files.
Import Importer ImporterSpec ImporterTerms.
Implicit Types (files : fs) (d f : string) (ids : gset string).

Lemma ends_with_app c s t : t ≠ "" → ends_with c (s +:+ t) = ends_with c t.
Proof.
  intros Ht. induction s as [|e s IH]; [done|].
  rewrite string_app_cons. simpl. rewrite IH.
  destruct (s +:+ t) eqn:E; [|done]. by destruct s, t.
Qed.

(** A month file is never the tracking file. *)
Lemma log_file_not_tracker month_str : month_str +:+ ".md" ≠ tracker.
Proof.
  intros Heq. assert (ends_with "s" (month_str +:+ ".md") = true) as Hs
    by (by rewrite Heq).
  by rewrite ends_with_app in Hs.
Qed.

Lemma get_imported_ids_write files d f content d' :
  f ≠ tracker →
  get_imported_ids (write_file d f content files) d' = get_imported_ids files d'.
Proof.
  intros Hf. unfold get_imported_ids, write_file.
  destruct (decide (d = d')) as [<-|Hd]; [|by rewrite lookup_insert_ne].
  rewrite lookup_insert_eq. simpl. rewrite lookup_insert_ne by done.
  by destruct (files !! d).
Qed.

Lemma write_file_other files d f content d' :
  d' ≠ d → write_file d f content files !! d' = files !! d'.
Proof. intros Hd. unfold write_file. by rewrite lookup_insert_ne. Qed.

Lemma write_file_exists files d f content d' :
  is_Some (files !! d') → is_Some (write_file d f content files !! d').
Proof.
  intros Hd'. unfold write_file. destruct (decide (d = d')) as [<-|Hd].
  - rewrite lookup_insert_eq. by eexists.
  - by rewrite lookup_insert_ne.
Qed.

Lemma get_imported_ids_mkdir files d d' :
  get_imported_ids (mkdir d files) d' = get_imported_ids files d'.
Proof.
  unfold get_imported_ids, mkdir. destruct (files !! d) eqn:E; [done|].
  destruct (decide (d = d')) as [<-|Hd].
  - by rewrite lookup_insert_eq, E.
  - by rewrite lookup_insert_ne.
Qed.

Lemma mkdir_exists files d d' :
  (d' = d ∨ is_Some (files !! d')) → is_Some (mkdir d files !! d').
Proof.
  unfold mkdir. intros [->|Hd'].
  - destruct (files !! d) eqn:E; [by rewrite E|]. rewrite lookup_insert_eq. by eexists.
  - destruct (files !! d) eqn:E; [done|].
    destruct (decide (d = d')) as [<-|Hd]; [by rewrite E in Hd'; destruct Hd'|].
    by rewrite lookup_insert_ne.
Qed.


Lemma mkdir_other files d d' : d' ≠ d → mkdir d files !! d' = files !! d'.
Proof.
  intros Hd. unfold mkdir. destruct (files !! d); [done|].
  by rewrite lookup_insert_ne.
Qed.

Lemma get_imported_ids_save files d ids :
  get_imported_ids (save_imported_ids files d ids) d
  = list_to_set (split nl_char (strip (tracker_content ids))).
Proof.
  unfold get_imported_ids, save_imported_ids, write_file.
  rewrite lookup_insert_eq. simpl. by rewrite lookup_insert_eq.
Qed.

Lemma get_imported_ids_save_other files d ids d' :
  d' ≠ d →
  get_imported_ids (save_imported_ids files d ids) d' = get_imported_ids files d'.
Proof.
  intros Hd. unfold get_imported_ids, save_imported_ids.
  by rewrite write_file_other.
Qed.

(** Saving a set keeps every clean id of it readable. *)
Lemma saved_ids_readable files d ids x :
  x ∈ ids → clean x → x ∈ get_imported_ids (save_imported_ids files d ids) d.
Proof.
  intros Hin Hx. rewrite get_imported_ids_save.
  apply elem_of_list_to_set. by apply tracker_roundtrip_keeps.
Qed.

(** *** Writing the month files *)

Lemma write_month_step campaign d gm_ids files ids item :
  let r := write_month campaign d gm_ids (files, ids) item in
  (∀ d', get_imported_ids r.1 d' = get_imported_ids files d')
  ∧ (∀ d', is_Some (files !! d') → is_Some (r.1 !! d'))
  ∧ (∀ d', d' ≠ d → r.1 !! d' = files !! d')
  ∧ r.2 = ids ∪ list_to_set (msg_id <$> item.2).
Proof.
  destruct item as [month_str month_msgs]. simpl. repeat split.
  - intros d'. apply get_imported_ids_write, log_file_not_tracker.
  - intros d' Hd'. by apply write_file_exists.
  - intros d' Hd'. by apply write_file_other.
Qed.

Lemma write_months_spec campaign d gm_ids items files ids :
  let r := foldl (write_month campaign d gm_ids) (files, ids) items in
  (∀ d', get_imported_ids r.1 d' = get_imported_ids files d')
  ∧ (∀ d', is_Some (files !! d') → is_Some (r.1 !! d'))
  ∧ (∀ d', d' ≠ d → r.1 !! d' = files !! d')
  ∧ r.2 = ids ∪ list_to_set (msg_id <$> (items ≫= snd)).
Proof.
  revert files ids. induction items as [|item items IH]; intros files ids.
  { simpl. repeat split; try done. by rewrite (right_id_L ∅ (∪) ids). }
  cbn [foldl].
  destruct (write_month_step campaign d gm_ids files ids item)
    as (Hget1 & Hex1 & Hoth1 & Hids1).
  destruct (write_month campaign d gm_ids (files, ids) item) as [files1 ids1].
  destruct (IH files1 ids1) as (Hget & Hex & Hoth & Hids).
  simpl in *. repeat split.
  - intros d'. by rewrite Hget, Hget1.
  - intros d' Hd'. by apply Hex, Hex1.
  - intros d' Hd'. by rewrite Hoth, Hoth1.
  - rewrite Hids, Hids1, fmap_app, list_to_set_app_L.
    by rewrite (assoc_L (∪)).
Qed.

(** *** Sorting *)

Lemma insert_by_perm {A} (key : A → string) x (l : list A) :
  insert_by key x l ≡ₚ x :: l.
Proof.
  induction l as [|y l IH]; [done|]. simpl.
  destruct (String.leb (key x) (key y)); [done|].
  rewrite IH. apply Permutation_swap.
Qed.

Lemma sorted_by_perm {A} (key : A → string) (l : list A) : sorted_by key l ≡ₚ l.
Proof.
  induction l as [|x l IH]; [done|]. simpl.
  by rewrite insert_by_perm, IH.
Qed.

Lemma sorted_items_lookup {A} (m : gmap string A) k v :
  (k, v) ∈ sorted_items m ↔ m !! k = Some v.
Proof.
  unfold sorted_items. rewrite merge_sort_Permutation.
  apply elem_of_map_to_list.
Qed.

Lemma sorted_items_keys {A} (m : gmap string A) : NoDup (sorted_items m).*1.
Proof.
  unfold sorted_items. rewrite merge_sort_Permutation.
  apply NoDup_fst_map_to_list.
Qed.

(** *** Grouping the new messages by month *)

Lemma group_step_unfold imported by_month n m :
  group_step imported (by_month, n) m
  = if decide (is_new imported m)
    then (append_at (month_of m) m by_month, S n)
    else (by_month, n).
Proof.
  unfold group_step.
  destruct (decide (is_new imported m)) as [[Hid Hmonth]|Hold].
  - rewrite bool_decide_eq_false_2 by done. by destruct (month_of m).
  - case_bool_decide; [done|]. destruct (month_of m) eqn:E; [done|].
    destruct Hold. split; [done|]. by rewrite E.
Qed.

Lemma group_fold_count imported l by_month n :
  (foldl (group_step imported) (by_month, n) l).2
  = (n + length (filter (is_new imported) l))%nat.
Proof.
  revert by_month n. induction l as [|m l IH]; intros by_month n;
    cbn [foldl]; [simpl; lia|].
  rewrite group_step_unfold, filter_cons.
  destruct (decide (is_new imported m)); rewrite IH; simpl; lia.
Qed.

Lemma grouped_append k x by_month m :
  grouped (append_at k x by_month) m ↔ m = x ∨ grouped by_month m.
Proof.
  unfold grouped, append_at. split.
  - intros (k' & l & Hl & Hm). destruct (decide (k = k')) as [<-|Hk].
    + rewrite lookup_insert_eq in Hl. simplify_eq.
      apply elem_of_app in Hm as [Hm|Hm].
      * right. destruct (by_month !! k) as [l0|] eqn:E; [by eauto|].
        by apply elem_of_nil in Hm.
      * left. by apply list_elem_of_singleton in Hm.
    + rewrite lookup_insert_ne in Hl by done. right. eauto.
  - intros [->|(k' & l & Hl & Hm)].
    + exists k. eexists. rewrite lookup_insert_eq. split; [done|].
      apply elem_of_app. right. by apply list_elem_of_singleton.
    + destruct (decide (k = k')) as [<-|Hk].
      * exists k. eexists. rewrite lookup_insert_eq. split; [done|].
        rewrite Hl. apply elem_of_app. by left.
      * exists k', l. by rewrite lookup_insert_ne.
Qed.

Lemma group_fold_members imported l by_month n m :
  grouped (foldl (group_step imported) (by_month, n) l).1 m
  ↔ (m ∈ l ∧ is_new imported m) ∨ grouped by_month m.
Proof.
  revert by_month n. induction l as [|x l IH]; intros by_month n; cbn [foldl].
  { simpl. split; [auto|]. intros [[Hin _]|]; [by apply elem_of_nil in Hin|done]. }
  rewrite group_step_unfold.
  destruct (decide (is_new imported x)) as [Hx|Hx]; rewrite IH.
  - rewrite grouped_append, elem_of_cons. intuition (subst; auto).
  - rewrite elem_of_cons. intuition (subst; tauto).
Qed.

Lemma append_at_perm k x (by_month : gmap string (list message)) :
  map_to_list (append_at k x by_month) ≫= snd
  ≡ₚ x :: (map_to_list by_month ≫= snd).
Proof.
  unfold append_at. destruct (by_month !! k) as [old|] eqn:E; simpl.
  - rewrite <- insert_delete_eq.
    rewrite map_to_list_insert by apply lookup_delete_eq.
    rewrite <- (map_to_list_delete by_month k old E), !bind_cons. simpl.
    rewrite <- (assoc_L (++)), (Permutation_app_comm [x]).
    by rewrite (assoc_L (++)), <- Permutation_cons_append.
  - rewrite map_to_list_insert by done. by rewrite bind_cons.
Qed.

Lemma group_fold_perm imported l by_month n :
  map_to_list (foldl (group_step imported) (by_month, n) l).1 ≫= snd
  ≡ₚ (map_to_list by_month ≫= snd) ++ filter (is_new imported) l.
Proof.
  revert by_month n. induction l as [|m l IH]; intros by_month n; cbn [foldl].
  { by rewrite filter_nil, (right_id_L [] (++)). }
  rewrite group_step_unfold, filter_cons.
  destruct (decide (is_new imported m)); rewrite IH; [|done].
  rewrite append_at_perm. apply Permutation_middle.
Qed.

(** The month loop writes an entry for each new message, once. *)
Lemma group_by_month_perm imported msgs :
  written (group_by_month imported msgs).1 ≡ₚ filter (is_new imported) msgs.
Proof.
  unfold written, sorted_items, group_by_month.
  rewrite merge_sort_Permutation, group_fold_perm, map_to_list_empty. simpl.
  by rewrite sorted_by_perm.
Qed.

Lemma group_by_month_count imported msgs :
  (group_by_month imported msgs).2 = count_new imported msgs.
Proof.
  unfold group_by_month, count_new. rewrite group_fold_count. simpl.
  apply Permutation_length. by rewrite sorted_by_perm.
Qed.

Lemma group_by_month_members imported msgs m :
  grouped (group_by_month imported msgs).1 m ↔ m ∈ msgs ∧ is_new imported m.
Proof.
  unfold group_by_month. rewrite group_fold_members, sorted_by_perm.
  split; [|auto]. intros [|(k & l & Hl & _)]; [done|].
  by rewrite lookup_empty in Hl.
Qed.

(** *** One campaign *)

Lemma save_imported_ids_exists files d ids d' :
  (d' = d ∨ is_Some (files !! d')) →
  is_Some (save_imported_ids files d ids !! d').
Proof.
  unfold save_imported_ids, write_file. intros [->|Hd'].
  - rewrite lookup_insert_eq. by eexists.
  - destruct (decide (d = d')) as [<-|Hd].
    + rewrite lookup_insert_eq. by eexists.
    + by rewrite lookup_insert_ne.
Qed.

Lemma save_imported_ids_other files d ids d' :
  d' ≠ d → save_imported_ids files d ids !! d' = files !! d'.
Proof. intros Hd. unfold save_imported_ids. by apply write_file_other. Qed.

Lemma count_new_zero imported msgs m :
  count_new imported msgs = O → m ∈ msgs → ¬ is_new imported m.
Proof.
  unfold count_new. intros Hlen Hin Hnew.
  apply length_zero_iff_nil in Hlen.
  assert (m ∈ filter (is_new imported) msgs) as Hm
    by (by apply list_elem_of_filter).
  rewrite Hlen in Hm. by apply elem_of_nil in Hm.
Qed.

(** A dry run of one campaign touches nothing and counts against the empty
    set. *)
Lemma import_campaign_dry gm files results c msgs :
  import_campaign true gm (files, results) (c, msgs)
  = (files, <[c := count_new ∅ msgs]> results).
Proof.
  unfold import_campaign. rewrite <- group_by_month_count.
  destruct (group_by_month ∅ msgs) as [by_month n]. simpl. by destruct n.
Qed.

(** A real run of one campaign: the count is that of the messages that are
    new with respect to the ids read from the campaign's directory; the
    directory exists afterwards; other directories are untouched; ids
    without white space stay readable everywhere; and every dated message of
    the campaign is readable from its directory afterwards. *)
Lemma import_campaign_real gm files results c msgs :
  let d := campaign_dir_of c in
  let imported := get_imported_ids files d in
  let r := import_campaign false gm (files, results) (c, msgs) in
  r.2 = <[c := count_new imported msgs]> results
  ∧ is_Some (r.1 !! d)
  ∧ (∀ d', is_Some (files !! d') → is_Some (r.1 !! d'))
  ∧ (∀ d', d' ≠ d → r.1 !! d' = files !! d')
  ∧ (∀ d' x, clean x → x ∈ get_imported_ids files d' →
             x ∈ get_imported_ids r.1 d')
  ∧ (∀ m, m ∈ msgs → month_of m ≠ "" → clean (msg_id m) →
          msg_id m ∈ get_imported_ids r.1 d)
  ∧ (count_new imported msgs = O → r.1 = mkdir d files).
Proof.
  intros d imported r. subst r. unfold import_campaign.
  fold (campaign_dir_of c). fold d.
  rewrite (get_imported_ids_mkdir files d d). fold imported.
  pose proof (group_by_month_count imported msgs) as Hcount.
  pose proof (group_by_month_members imported msgs) as Hmem.
  destruct (group_by_month imported msgs) as [by_month n]. simpl in Hcount, Hmem.
  subst n. destruct (count_new imported msgs) as [|n] eqn:Hn.
  - simpl. split; [done|]. split; [apply mkdir_exists; by left|].
    split; [intros d' Hd'; apply mkdir_exists; by right|].
    split; [intros d' Hd'; by apply mkdir_other|].
    split; [intros d' x _; by rewrite get_imported_ids_mkdir|].
    split; [|done]. intros m Hin Hmonth _. rewrite get_imported_ids_mkdir.
    fold imported. destruct (decide (msg_id m ∈ imported)) as [|Hid]; [done|].
    by destruct (count_new_zero imported msgs m Hn Hin).
  - destruct (write_months_spec c d (default ∅ (gm !! c)) (sorted_items by_month)
                (mkdir d files) ∅) as (Hget & Hex & Hoth & Hids).
    destruct (foldl (write_month c d (default ∅ (gm !! c))) (mkdir d files, ∅)
                (sorted_items by_month)) as [files2 new_ids].
    simpl in Hget, Hex, Hoth, Hids. simpl.
    split; [done|]. split; [apply save_imported_ids_exists; by left|].
    split.
    { intros d' Hd'. apply save_imported_ids_exists. right.
      apply Hex, mkdir_exists. by right. }
    split.
    { intros d' Hd'. by rewrite save_imported_ids_other, Hoth, mkdir_other. }
    split.
    { intros d' x Hx Hin. destruct (decide (d' = d)) as [->|Hd'].
      - apply saved_ids_readable; [|done]. apply elem_of_union. by left.
      - by rewrite get_imported_ids_save_other, Hget, get_imported_ids_mkdir. }
    split; [|done]. intros m Hin Hmonth Hclean.
    apply saved_ids_readable; [|done]. apply elem_of_union.
    destruct (decide (msg_id m ∈ imported)) as [|Hid]; [by left|]. right.
    destruct (proj2 (Hmem m)) as (k & l & Hl & Hml); [done|].
    rewrite Hids. apply elem_of_union. right. apply elem_of_list_to_set.
    apply list_elem_of_fmap. exists m. split; [done|].
    apply list_elem_of_bind. exists (k, l). split; [done|].
    by apply sorted_items_lookup.
Qed.

(** *** All campaigns *)

Lemma import_loop_cons dry gm files results item items :
  import_loop dry gm files results (item :: items)
  = let r := import_campaign dry gm (files, results) item in
    import_loop dry gm r.1 r.2 items.
Proof. unfold import_loop. cbn [foldl]. by destruct (import_campaign _ _ _ _). Qed.



Lemma count_new_mono imported imported' msgs :
  (∀ m, m ∈ msgs → msg_id m ∈ imported → msg_id m ∈ imported') →
  (count_new imported' msgs ≤ count_new imported msgs)%nat.
Proof.
  unfold count_new. induction msgs as [|m msgs IH]; intros Hsub; [done|].
  assert (length (filter (is_new imported') msgs)
          ≤ length (filter (is_new imported) msgs))%nat as Hrest.
  { apply IH. intros m' Hm'. by apply Hsub, list_elem_of_further. }
  rewrite !filter_cons.
  destruct (decide (is_new imported' m)) as [[Hid Hmonth]|Hold];
    destruct (decide (is_new imported m)) as [Hnew|Hnot]; simpl; try lia.
  destruct Hnot. split; [|done]. intros Hin. apply Hid.
  by apply Hsub; [apply list_elem_of_here|].
Qed.

Lemma count_new_empty msgs : count_new ∅ msgs = count_dated msgs.
Proof.
  unfold count_new, count_dated. induction msgs as [|m msgs IH]; [done|].
  rewrite !filter_cons.
  destruct (decide (is_new ∅ m)) as [[_ Hmonth]|Hold].
  - rewrite decide_True by done. simpl. by rewrite IH.
  - rewrite decide_False; [done|]. intros Hmonth. apply Hold.
    split; [apply not_elem_of_empty|done].
Qed.

(** The results of a loop gain one entry per campaign and lose none. *)
Lemma import_loop_results_other dry gm items files results c :
  c ∉ items.*1 →
  (import_loop dry gm files results items).2 !! c = results !! c.
Proof.
  revert files results. induction items as [|[c0 msgs0] items IH];
    intros files results Hc; [done|].
  rewrite import_loop_cons. cbn zeta. rewrite IH.
  - assert (c0 ≠ c) as Hne by (intros ->; apply Hc, list_elem_of_here).
    destruct dry.
    + rewrite import_campaign_dry. simpl. by rewrite lookup_insert_ne.
    + destruct (import_campaign_real gm files results c0 msgs0) as (-> & _).
      by rewrite lookup_insert_ne.
  - intros Hin. apply Hc. by apply list_elem_of_further.
Qed.

(** A dry run changes no file and reports, for each campaign, the number of
    its dated candidates. *)
Lemma import_loop_dry gm items files results :
  (import_loop true gm files results items).1 = files
  ∧ (NoDup items.*1 → ∀ c msgs, (c, msgs) ∈ items →
       (import_loop true gm files results items).2 !! c
       = Some (count_dated msgs)).
Proof.
  revert results. induction items as [|[c0 msgs0] items IH]; intros results.
  { split; [done|]. intros _ c msgs Hin. by apply elem_of_nil in Hin. }
  rewrite import_loop_cons, import_campaign_dry. cbn zeta. simpl.
  destruct (IH (<[c0 := count_new ∅ msgs0]> results)) as [IH1 IH2].
  split; [done|]. intros Hnd c msgs Hin.
  apply NoDup_cons in Hnd as [Hc0 Hnd].
  apply elem_of_cons in Hin as [[= -> ->]|Hin]; [|by apply IH2].
  rewrite import_loop_results_other by done.
  by rewrite lookup_insert_eq, count_new_empty.
Qed.

(** A real run never removes a directory nor a clean id. *)
Lemma import_loop_monotone gm items files results :
  let r := import_loop false gm files results items in
  (∀ d', is_Some (files !! d') → is_Some (r.1 !! d'))
  ∧ (∀ d' x, clean x → x ∈ get_imported_ids files d' →
             x ∈ get_imported_ids r.1 d').
Proof.
  revert files results. induction items as [|[c0 msgs0] items IH];
    intros files results; [done|].
  rewrite import_loop_cons. cbn zeta.
  destruct (import_campaign_real gm files results c0 msgs0)
    as (_ & _ & Hex & _ & Hmono & _).
  destruct (import_campaign false gm (files, results) (c0, msgs0))
    as [files1 results1]. simpl in *.
  destruct (IH files1 results1) as [IHex IHmono]. split.
  - intros d' Hd'. by apply IHex, Hex.
  - intros d' x Hx Hin. by apply IHmono, Hmono.
Qed.



Lemma import_loop_zeroed dry gm items files results :
  (λ _, O) <$> (import_loop dry gm files results items).2
  = foldl (λ r item, <[item.1 := O]> r) ((λ _, O) <$> results) items.
Proof.
  revert files results. induction items as [|[c0 msgs0] items IH];
    intros files results; [done|].
  rewrite import_loop_cons. cbn zeta. rewrite IH. cbn [foldl]. f_equal.
  destruct dry.
  - rewrite import_campaign_dry. simpl. by rewrite fmap_insert.
  - destruct (import_campaign_real gm files results c0 msgs0) as (-> & _).
    by rewrite fmap_insert.
Qed.


Lemma get_imported_ids_ext files files' d :
  files' !! d = files !! d → get_imported_ids files' d = get_imported_ids files d.
Proof. intros Heq. unfold get_imported_ids. by rewrite Heq. Qed.

(** What a real run counts never exceeds the number of dated candidates. *)
Lemma import_loop_at_most_dated gm items files results :
  NoDup items.*1 →
  ∀ c msgs, (c, msgs) ∈ items →
    ∃ n, (import_loop false gm files results items).2 !! c = Some n
         ∧ (n ≤ count_dated msgs)%nat.
Proof.
  revert files results. induction items as [|[c0 msgs0] items IH];
    intros files results Hnd c msgs Hin.
  { by apply elem_of_nil in Hin. }
  apply NoDup_cons in Hnd as [Hc0 Hnd].
  rewrite import_loop_cons. cbn zeta.
  destruct (import_campaign_real gm files results c0 msgs0) as (Hres & _).
  destruct (import_campaign false gm (files, results) (c0, msgs0))
    as [files1 results1]. simpl in *.
  apply elem_of_cons in Hin as [[= -> ->]|Hin]; [|by apply IH].
  rewrite import_loop_results_other, Hres, lookup_insert_eq by done.
  eexists. split; [done|]. rewrite <- count_new_empty.
  apply count_new_mono. intros m _ Hm. by apply elem_of_empty in Hm.
Qed.

(** With one directory per campaign, a real run counts for each campaign
    exactly the messages that are new with respect to the ids recorded
    before the run. *)
Lemma import_loop_exact gm items files results :
  NoDup (campaign_dir_of <$> items.*1) →
  ∀ c msgs, (c, msgs) ∈ items →
    (import_loop false gm files results items).2 !! c
    = Some (count_new (get_imported_ids files (campaign_dir_of c)) msgs).
Proof.
  revert files results. induction items as [|[c0 msgs0] items IH];
    intros files results Hnd c msgs Hin.
  { by apply elem_of_nil in Hin. }
  rewrite fmap_cons, fmap_cons in Hnd. simpl in Hnd.
  apply NoDup_cons in Hnd as [Hd0 Hnd].
  assert (c0 ∉ items.*1) as Hc0.
  { intros Hc. apply Hd0. by apply list_elem_of_fmap_2. }
  rewrite import_loop_cons. cbn zeta.
  destruct (import_campaign_real gm files results c0 msgs0)
    as (Hres & _ & _ & Hoth & _).
  destruct (import_campaign false gm (files, results) (c0, msgs0))
    as [files1 results1]. simpl in *.
  apply elem_of_cons in Hin as [[= -> ->]|Hin].
  - by rewrite import_loop_results_other, Hres, lookup_insert_eq.
  - rewrite (IH files1 results1 Hnd c msgs Hin). f_equal. f_equal.
    apply get_imported_ids_ext, Hoth. intros Heq. apply Hd0. rewrite <- Heq.
    apply list_elem_of_fmap_2. by apply (list_elem_of_fmap_2 fst _ (c, msgs)).
Qed.

(** On a state that records none of the candidates' ids, with one directory
    per campaign, a real run counts every dated candidate. *)
Lemma import_loop_fresh gm items files results :
  NoDup (campaign_dir_of <$> items.*1) →
  (∀ c msgs m, (c, msgs) ∈ items → m ∈ msgs →
     msg_id m ∉ get_imported_ids files (campaign_dir_of c)) →
  ∀ c msgs, (c, msgs) ∈ items →
    (import_loop false gm files results items).2 !! c = Some (count_dated msgs).
Proof.
  revert files results. induction items as [|[c0 msgs0] items IH];
    intros files results Hnd Hfresh c msgs Hin.
  { by apply elem_of_nil in Hin. }
  rewrite fmap_cons, fmap_cons in Hnd. simpl in Hnd.
  apply NoDup_cons in Hnd as [Hd0 Hnd].
  assert (c0 ∉ items.*1) as Hc0.
  { intros Hc. apply Hd0. by apply list_elem_of_fmap_2. }
  rewrite import_loop_cons. cbn zeta.
  destruct (import_campaign_real gm files results c0 msgs0)
    as (Hres & _ & _ & Hoth & _).
  destruct (import_campaign false gm (files, results) (c0, msgs0))
    as [files1 results1]. simpl in *.
  apply elem_of_cons in Hin as [[= -> ->]|Hin].
  - rewrite import_loop_results_other, Hres, lookup_insert_eq by done.
    f_equal. rewrite <- count_new_empty. apply Nat.le_antisymm.
    + apply count_new_mono. intros m _ Hm. by apply elem_of_empty in Hm.
    + apply count_new_mono. intros m Hm Hid.
      destruct (Hfresh c0 msgs0 m); [apply list_elem_of_here|done..].
  - apply IH; [done| |done]. intros c' msgs' m Hin' Hm.
    rewrite (get_imported_ids_ext files files1).
    + eapply Hfresh; [by apply list_elem_of_further|done].
    + apply Hoth. intros Heq. apply Hd0. rewrite <- Heq.
      apply list_elem_of_fmap_2. by apply (list_elem_of_fmap_2 fst _ (c', msgs')).
Qed.

(** *** From the export to the campaigns *)


Lemma campaigns_of_lookup cfg exp c msgs :
  (c, msgs) ∈ campaigns_of cfg exp ↔ pbp_messages_of cfg exp !! c = Some msgs.
Proof. apply sorted_items_lookup. Qed.


Lemma import_messages_loop cfg exp dry files :
  import_messages cfg exp dry files
  = import_loop dry (build_gm_map cfg) files ∅ (campaigns_of cfg exp).
Proof. done. Qed.

(** *** Idempotence and dry runs *)

Lemma string_app_inj_r a b s : a +:+ s = b +:+ s → a = b.
Proof.
  revert b. induction a as [|c a IH]; intros [|c' b] Heq.
  - done.
  - apply (f_equal String.length) in Heq.
    rewrite !string_length_app in Heq. simpl in Heq. lia.
  - apply (f_equal String.length) in Heq.
    rewrite !string_length_app in Heq. simpl in Heq. lia.
  - rewrite !string_app_cons in Heq. injection Heq as -> Heq.
    by rewrite (IH b Heq).
Qed.

Lemma file_at_write files d f content d' f' :
  file_at (write_file d f content files) d' f'
  = if decide (d' = d ∧ f' = f) then Some content else file_at files d' f'.
Proof.
  unfold file_at, write_file.
  destruct (decide (d' = d)) as [->|Hd].
  - rewrite lookup_insert_eq. cbn [mbind option_bind].
    destruct (decide (f' = f)) as [->|Hf].
    + rewrite lookup_insert_eq. by rewrite decide_True.
    + rewrite lookup_insert_ne by done. rewrite decide_False by (by intros [_ ?]).
      by destruct (files !! d).
  - rewrite lookup_insert_ne by done. rewrite decide_False; [done|].
    by intros [? _].
Qed.

Lemma file_at_mkdir files d d' f' :
  file_at (mkdir d files) d' f' = file_at files d' f'.
Proof.
  unfold file_at, mkdir. destruct (files !! d) eqn:Hd; [done|].
  destruct (decide (d' = d)) as [->|Hne].
  - by rewrite lookup_insert_eq, Hd.
  - by rewrite lookup_insert_ne.
Qed.

Lemma file_at_save files d ids d' f' :
  f' ≠ tracker →
  file_at (save_imported_ids files d ids) d' f' = file_at files d' f'.
Proof.
  intros Hf. unfold save_imported_ids. rewrite file_at_write.
  rewrite decide_False; [done|]. by intros [_ ?].
Qed.

Lemma file_at_write_month c d gm files ids k l d' f' :
  file_at (write_month c d gm (files, ids) (k, l)).1 d' f'
  = if decide (d' = d ∧ f' = k +:+ ".md")
    then Some (default (header c k) (file_at files d (k +:+ ".md"))
               +:+ entries gm l)
    else file_at files d' f'.
Proof.
  unfold write_month. cbn [fst]. rewrite file_at_write.
  case_decide; [|done]. unfold file_at, entries.
  by destruct (files !! d ≫= (.!! k +:+ ".md")).
Qed.

Lemma write_months_file c d gm items files ids k :
  NoDup items.*1 →
  file_at (foldl (write_month c d gm) (files, ids) items).1 d (k +:+ ".md")
  = match list_find (λ item, item.1 = k) items with
    | Some (_, (_, l)) =>
        Some (default (header c k) (file_at files d (k +:+ ".md"))
              +:+ entries gm l)
    | None => file_at files d (k +:+ ".md")
    end.
Proof.
  revert files ids. induction items as [|[k' l'] items IH];
    intros files ids Hnd; [done|].
  change (NoDup (k' :: items.*1)) in Hnd.
  apply NoDup_cons in Hnd as [Hk' Hnd]. cbn [foldl].
  destruct (write_month c d gm (files, ids) (k', l')) as [files' ids'] eqn:E.
  rewrite (IH files' ids' Hnd).
  assert (∀ f', file_at files' d f'
                = if decide (d = d ∧ f' = k' +:+ ".md")
                  then Some (default (header c k')
                               (file_at files d (k' +:+ ".md"))
                             +:+ entries gm l')
                  else file_at files d f') as Hstep.
  { intros f'. rewrite <- (file_at_write_month c d gm files ids k' l' d f').
    by rewrite E. }
  cbn [list_find fst]. destruct (decide (k' = k)) as [->|Hne]; cbv iota.
  - destruct (list_find _ items) as [[j [k2 l2]]|] eqn:Hfind.
    + apply list_find_Some in Hfind as (Hj & Hk2 & _). cbn in Hk2. subst k2.
      destruct Hk'. apply list_elem_of_fmap. exists (k, l2).
      split; [done|]. by eapply list_elem_of_lookup_2.
    + rewrite Hstep. by rewrite decide_True.
  - assert (file_at files' d (k +:+ ".md") = file_at files d (k +:+ ".md"))
      as Hsame.
    { rewrite Hstep. rewrite decide_False; [done|].
      intros [_ Heq]. by apply string_app_inj_r in Heq. }
    rewrite Hsame.
    destruct (list_find _ items) as [[j [k2 l2]]|]; by cbn.
Qed.

Lemma group_fold_lookup imported l (by_month : gmap string (list message)) n k :
  (foldl (group_step imported) (by_month, n) l).1 !! k
  = match by_month !! k, filter (new_in_month imported k) l with
    | Some old, found => Some (old ++ found)
    | None, [] => None
    | None, found => Some found
    end.
Proof.
  revert by_month n. induction l as [|m l IH]; intros by_month n.
  - cbn [foldl fst]. rewrite filter_nil. destruct (by_month !! k); [|done].
    by rewrite app_nil_r.
  - cbn [foldl]. rewrite group_step_unfold, filter_cons.
    destruct (decide (is_new imported m)) as [Hnew|Hold].
    + rewrite IH. unfold append_at.
      destruct (decide (month_of m = k)) as [<-|Hk].
      * rewrite lookup_insert_eq, decide_True by done.
        destruct (by_month !! month_of m); cbn [default].
        -- by rewrite <- app_assoc.
        -- done.
      * rewrite lookup_insert_ne by done.
        rewrite decide_False; [done|]. by intros [_ ?].
    + rewrite IH. rewrite decide_False; [done|]. by intros [? _].
Qed.

(** The month files of one campaign after its import. *)
Lemma import_campaign_month_file gm files results c msgs k :
  let d := campaign_dir_of c in
  let imported := get_imported_ids files d in
  let r := import_campaign false gm (files, results) (c, msgs) in
  let found := filter (new_in_month imported k) (sorted_by date_of msgs) in
  file_at r.1 d (k +:+ ".md")
  = match found with
    | [] => file_at files d (k +:+ ".md")
    | _ => Some (default (header c k) (file_at files d (k +:+ ".md"))
                 +:+ entries (default ∅ (gm !! c)) found)
    end.
Proof.
  intros d imported r found. subst r. unfold import_campaign.
  fold (campaign_dir_of c). fold d.
  rewrite (get_imported_ids_mkdir files d d). fold imported.
  pose proof (group_fold_lookup imported (sorted_by date_of msgs) ∅ O k)
    as Hlookup.
  rewrite lookup_empty in Hlookup. fold found in Hlookup.
  pose proof (group_by_month_count imported msgs) as Hcount.
  pose proof (group_by_month_perm imported msgs) as Hperm.
  change (foldl (group_step imported) (∅, O) (sorted_by date_of msgs))
    with (group_by_month imported msgs) in Hlookup.
  destruct (group_by_month imported msgs) as [by_month n].
  cbn [fst snd] in *.
  destruct n as [|n].
  - cbn [fst]. rewrite file_at_mkdir.
    destruct found as [|m found'] eqn:Hfound; [done|].
    exfalso. symmetry in Hcount.
    assert (m ∈ filter (new_in_month imported k) (sorted_by date_of msgs))
      as Hm by (fold found; rewrite Hfound; by left).
    apply list_elem_of_filter in Hm as [[Hnew _] Hin].
    rewrite (sorted_by_perm date_of msgs) in Hin.
    by apply (count_new_zero imported msgs m Hcount Hin).
  - destruct (foldl _ _ _) as [files' new_ids] eqn:E. cbn [fst].
    rewrite file_at_save by apply log_file_not_tracker.
    pose proof (write_months_file c d (default ∅ (gm !! c))
                  (sorted_items by_month) (mkdir d files) ∅ k
                  (sorted_items_keys by_month)) as Hfile.
    rewrite E in Hfile. cbn [fst] in Hfile. rewrite Hfile, file_at_mkdir.
    destruct (list_find _ _) as [[j [k2 l2]]|] eqn:Hfind.
    + apply list_find_Some in Hfind as (Hj & Hk2 & _). cbn in Hk2. subst k2.
      apply list_elem_of_lookup_2, sorted_items_lookup in Hj.
      rewrite Hj in Hlookup. destruct found; by simplify_eq.
    + destruct found as [|m found'] eqn:Hfound; [done|].
      exfalso. eapply list_find_None in Hfind.
      assert ((k, m :: found') ∈ sorted_items by_month) as Hin
        by (by apply sorted_items_lookup).
      eapply Forall_forall in Hfind; [|exact Hin]. by apply Hfind.
Qed.









(** C4 (amended). A dry run changes no file, hence no id set, and reports
    for every campaign the number of its candidates that carry a date: it
    does not consult the ids already imported.  A real run on the same state
    reports at most that; when the campaigns have distinct directories it
    reports the number of candidates that are new with respect to the ids
    the state records, which is the dry run's count when the state records
    none of the candidates' ids, as on a first import. *)
Theorem dry_run_counts_all_dated cfg exp files :
  let dry := import_messages cfg exp true files in
  let real := import_messages cfg exp false files in
  dry.1 = files
  ∧ (∀ c msgs, pbp_messages_of cfg exp !! c = Some msgs →
       dry.2 !! c = Some (count_dated msgs))
  ∧ (∀ c msgs, pbp_messages_of cfg exp !! c = Some msgs →
       ∃ n, real.2 !! c = Some n ∧ (n ≤ count_dated msgs)%nat)
  ∧ (NoDup (campaign_dir_of <$> (campaigns_of cfg exp).*1) →
     (∀ c msgs, pbp_messages_of cfg exp !! c = Some msgs →
        real.2 !! c
        = Some (count_new (get_imported_ids files (campaign_dir_of c)) msgs))
     ∧ ((∀ c msgs m, pbp_messages_of cfg exp !! c = Some msgs → m ∈ msgs →
           msg_id m ∉ get_imported_ids files (campaign_dir_of c)) →
        real.2 = dry.2)).
Proof.
  intros dry real. subst dry real. rewrite !import_messages_loop.
  set (gm := build_gm_map cfg). set (items := campaigns_of cfg exp).
  destruct (import_loop_dry gm items files ∅) as [Hfiles Hdry].
  pose proof (sorted_items_keys (pbp_messages_of cfg exp)) as Hkeys.
  fold (campaigns_of cfg exp) in Hkeys. fold items in Hkeys.
  split; [done|]. split; [|split].
  - intros c msgs Hc. by apply Hdry, campaigns_of_lookup.
  - intros c msgs Hc. by apply import_loop_at_most_dated, campaigns_of_lookup.
  - intros Hdirs. split.
    { intros c msgs Hc. by apply import_loop_exact, campaigns_of_lookup. }
    intros Hfresh. apply map_eq. intros c.
    destruct (decide (c ∈ items.*1)) as [Hin|Hout].
    + apply list_elem_of_fmap in Hin as ([c' msgs] & -> & Hin). simpl.
      rewrite (Hdry Hkeys c' msgs Hin).
      apply import_loop_fresh; [done| |done].
      intros c msgs' m Hin' Hm. apply (Hfresh c msgs'); [|done].
      by apply campaigns_of_lookup.
    + by rewrite !import_loop_results_other.
Qed.

End importer_files.

(** ** Concrete runs of the importer *)

Section importer_runs.
Import Importer ImporterSpec ImporterTerms ImporterScenario.

(** The cases of the importer's test suite, evaluated on the model. *)
Lemma format_entry_player :
  format_entry (Message None None None None None (Some "2025-06-15T14:30:05")
                        (Some "Alice") (Some "user42")
                        (Some (TextStr "I attack!")) None None None None None)
               false
  = "**Alice** (2025-06-15 14:30:05):" +:+ nl +:+ "I attack!" +:+ nl.
Proof. vm_compute. reflexivity. Qed.

Lemma format_entry_media :
  format_entry (Message None None None None None (Some "2025-06-15T14:30:05")
                        (Some "Alice") (Some "user42")
                        (Some (TextStr "battle map")) None None None
                        (Some "photo.jpg") None)
               true
  = "**Alice** [GM] (2025-06-15 14:30:05):" +:+ nl
      +:+ "*[image]* battle map" +:+ nl.
Proof. vm_compute. reflexivity. Qed.

Lemma detect_media_video_and_voice :
  detect_media (only_media_type "video_file") = Some "video"
  ∧ detect_media (only_media_type "voice_message") = Some "voice message"
  ∧ detect_media (only_text (TextStr "just text")) = None.
Proof. by vm_compute. Qed.

Lemma build_thread_map_two_campaigns :
  let m := build_thread_map
             (Config None (Some [TopicPair "A" (Some [100; 101]) None;
                                 TopicPair "B" (Some [200]) None])) in
  m !! 100 = Some "A" ∧ m !! 101 = Some "A" ∧ m !! 200 = Some "B"
  ∧ m !! 10 = None.
Proof. by vm_compute. Qed.

Lemma service_messages_skipped :
  let pinned :=
    Message (Some 2) (Some "message") (Some 100) None (Some "pin_message")
            (Some "2025-06-15T14:30:05") (Some "Alice") (Some "user42")
            (Some (TextStr "")) None None None None None in
  let exp := Export (Some [post (Some 1) 100 "Real post" "2025-06-15T14:30:05"
                                "user42"; pinned]) in
  (import_messages cfg exp false ∅).2 = {["TestCampaign" := 1%nat]}.
Proof. vm_compute. reflexivity. Qed.

(** The month files of the first import: a header, then one entry per
    message in chronological order, the game master's marked. *)
Lemma first_import_june :
  imported_once !! "TestCampaign" ≫= (.!! "2025-06.md")
  = Some (header "TestCampaign" "2025-06"
          +:+ "**Alice** (2025-06-15 10:00:00):" +:+ nl +:+ "First post" +:+ nl
          +:+ nl
          +:+ "**Alice** [GM] (2025-06-15 10:05:00):" +:+ nl +:+ "GM narrates"
          +:+ nl +:+ nl).
Proof. vm_compute. reflexivity. Qed.

Lemma first_import_tracker :
  imported_once !! "TestCampaign" ≫= (.!! tracker)
  = Some ("1" +:+ nl +:+ "2" +:+ nl +:+ "3" +:+ nl).
Proof. vm_compute. reflexivity. Qed.

Lemma first_import_counts :
  (import_messages cfg exported false ∅).2 = {["TestCampaign" := 3%nat]}.
Proof. vm_compute. reflexivity. Qed.

Lemma dry_run_after_import :
  (import_messages cfg exported true imported_once).2 !! "TestCampaign"
  = Some 3%nat.
Proof. vm_compute. reflexivity. Qed.

Lemma real_run_after_import :
  (import_messages cfg exported false imported_once).2 !! "TestCampaign"
  = Some O.
Proof. vm_compute. reflexivity. Qed.

(** C4, counterexample: once the export has been imported, a dry run still
    reports three new messages where a real run reports none. *)
Lemma dry_run_differs_after_import : ¬ dry_run_matches_real_run.
Proof.
  intros Hclaim. specialize (Hclaim cfg exported imported_once).
  pose proof dry_run_after_import as Hdry. rewrite Hclaim in Hdry.
  rewrite real_run_after_import in Hdry. discriminate.
Qed.

(** The later export only adds post 5. *)
Lemma overlapping_import_counts :
  (import_messages cfg exported_later false imported_once).2
  = {["TestCampaign" := 1%nat]}.
Proof. vm_compute. reflexivity. Qed.

(** A record without an id is written again by a second run: its empty id
    is the first line of the tracking file and is stripped on reading. *)
Lemma record_without_id_reimported :
  let once := (import_messages cfg exported_without_id false ∅).1 in
  (import_messages cfg exported_without_id false once).2
  = {["TestCampaign" := 1%nat]}.
Proof. vm_compute. reflexivity. Qed.








Lemma dry_run_counts_all_dated_witness :
  (NoDup (campaign_dir_of <$> (campaigns_of cfg exported).*1)
   ∧ ∀ c msgs m, pbp_messages_of cfg exported !! c = Some msgs → m ∈ msgs →
       msg_id m ∉ get_imported_ids ∅ (campaign_dir_of c))
  ∧ (import_messages cfg exported false ∅).2
    = (import_messages cfg exported true ∅).2.
Proof.
  assert (NoDup (campaign_dir_of <$> (campaigns_of cfg exported).*1)) as Hdirs.
  { vm_compute. apply NoDup_singleton. }
  assert (∀ c msgs m, pbp_messages_of cfg exported !! c = Some msgs → m ∈ msgs →
            msg_id m ∉ get_imported_ids ∅ (campaign_dir_of c)) as Hfresh.
  { intros c msgs m _ _. unfold get_imported_ids. rewrite lookup_empty.
    apply not_elem_of_empty. }
  split; [done|].
  exact (proj2 (proj2 (proj2 (proj2 (dry_run_counts_all_dated cfg exported ∅)))
                  Hdirs) Hfresh).
Defined.

End importer_runs.

(** * Further properties of the checker *)

Section checker_coverage.
Import Checker CheckerSpec.
Context `{Env W}.
Implicit Types (cfg : config) (st : state) (w : W) (u : update).

(** ** Batches of updates *)

(** The loop body reads the state only through [topics]. *)
Lemma track_topics_only cfg ids off st st' w u :
  topics st = topics st' →
  let r := track cfg ids (off, st, w) u in
  let r' := track cfg ids (off, st', w) u in
  new_offset_of r = new_offset_of r'
  ∧ topics (state_of r) = topics (state_of r')
  ∧ r.2 = r'.2.
Proof.
  intros Ht. unfold track. simpl.
  repeat (case_match; simplify_eq/=); try done. by rewrite Ht.
Qed.

Lemma foldl_track_topics_only cfg ids us off st st' w :
  topics st = topics st' →
  let r := foldl (track cfg ids) (off, st, w) us in
  let r' := foldl (track cfg ids) (off, st', w) us in
  new_offset_of r = new_offset_of r'
  ∧ topics (state_of r) = topics (state_of r')
  ∧ r.2 = r'.2.
Proof.
  revert off st st' w. induction us as [|u us IH]; intros off st st' w Ht;
    [done|].
  cbn [foldl]. destruct (track_topics_only cfg ids off st st' w u Ht)
    as (Ho & Htop & Hw).
  destruct (track cfg ids (off, st, w) u) as [[o1 s1] w1].
  destruct (track cfg ids (off, st', w) u) as [[o2 s2] w2].
  simpl in Ho, Htop, Hw. subst o2 w2. by apply IH.
Qed.

(** X1. Splitting a batch over two runs changes nothing: processing the
    first part, storing the returned offset as [main] does, and processing
    the rest gives the offset, the records and the world that processing
    the whole batch at once gives. *)
Theorem process_updates_split us1 us2 cfg st w :
  let r1 := process_updates us1 cfg st w in
  let stored := State (Some (new_offset_of r1)) (topics (state_of r1))
                      (last_alerts (state_of r1)) in
  let r2 := process_updates us2 cfg stored r1.2 in
  let whole := process_updates (us1 ++ us2) cfg st w in
  new_offset_of r2 = new_offset_of whole
  ∧ topics (state_of r2) = topics (state_of whole)
  ∧ last_alerts (state_of r2) = last_alerts (state_of whole)
  ∧ r2.2 = whole.2.
Proof.
  intros r1 stored r2 whole. subst r2 whole stored r1. unfold process_updates.
  rewrite foldl_app.
  destruct (foldl_track_frame cfg (pbp_topic_ids cfg) us1 (default 0 (offset st)) st w)
    as [_ Hal1].
  destruct (foldl (track cfg (pbp_topic_ids cfg)) (default 0 (offset st), st, w) us1)
    as [[off1 st1] w1]. simpl in *.
  destruct (foldl_track_topics_only cfg (pbp_topic_ids cfg) us2 off1
              (State (Some off1) (topics st1) (last_alerts st1)) st1 w1 eq_refl)
    as (Ho & Ht & Hw).
  destruct (foldl_track_frame cfg (pbp_topic_ids cfg) us2 off1
              (State (Some off1) (topics st1) (last_alerts st1)) w1) as [_ Ha].
  destruct (foldl_track_frame cfg (pbp_topic_ids cfg) us2 off1 st1 w1) as [_ Hb].
  repeat split; try done. by rewrite Ha, Hb.
Qed.

(** What one update can do to the record of a topic: leave it, or overwrite
    it from a message that passes the filters for that topic. *)
Lemma track_lookup cfg off st w u k ts :
  topics (state_of (track cfg (pbp_topic_ids cfg) (off, st, w) u)) !! k = Some ts →
  topics st !! k = Some ts
  ∨ ∃ msg, qualifies cfg u k msg
      ∧ last_user ts = Some (sender_name msg)
      ∧ campaign_name ts = pbp_topic_ids cfg !! k.
Proof.
  unfold track.
  destruct (upd_message u) as [msg|] eqn:Hmsg; [|by left].
  destruct (msg_truthy (Some msg)); [|by left]. simpl.
  case_bool_decide as Hchat; [|by left]. simpl.
  destruct (message_thread_id msg) as [thread|] eqn:Hthread; [|by left].
  destruct (pbp_topic_ids cfg !! str thread) as [campaign|] eqn:Hc; [|by left].
  destruct (default false (is_bot (default (User None None) (from msg))))
    eqn:Hbot; [by left|].
  destruct (utcnow w) as [now w']. simpl.
  destruct (decide (str thread = k)) as [<-|Hne];
    [|rewrite lookup_insert_ne by done; by left].
  rewrite lookup_insert_eq. intros [= <-]. right. exists msg. split.
  - split; [done|]. split; [done|]. split.
    + exists thread. split; [done|]. split; [done|].
      destruct (proj1 (pbp_topic_ids_lookup cfg (str thread)) _ Hc)
        as (pair & Hin & Hk & _).
      exists pair. split; [done|]. by apply (inj str).
    + unfold from_bot. by destruct (from msg).
  - simpl. split; [|done]. unfold sender_name. by destruct (from msg).
Qed.

Lemma track_keeps_keys cfg ids off st w u k :
  is_Some (topics st !! k) →
  is_Some (topics (state_of (track cfg ids (off, st, w) u)) !! k).
Proof.
  intros Hk. unfold track. simpl.
  repeat (case_match; simplify_eq/=); try done.
  apply lookup_insert_is_Some'. by right.
Qed.

(** X2. Records are never dropped, and a record found after a batch is
    either the one that was there before or was written from a message of
    the batch that passes the filters for that topic: it names that
    message's sender and the campaign configured for the topic, so its key
    is a configured topic id. *)
Theorem process_updates_records updates cfg st w :
  let st' := state_of (process_updates updates cfg st w) in
  (∀ k, is_Some (topics st !! k) → is_Some (topics st' !! k))
  ∧ (∀ k ts, topics st' !! k = Some ts →
       topics st !! k = Some ts
       ∨ ∃ u msg pair, u ∈ updates ∧ qualifies cfg u k msg
           ∧ last_user ts = Some (sender_name msg)
           ∧ pair ∈ topic_pairs cfg ∧ key_of pair = k
           ∧ campaign_name ts = Some (name pair)).
Proof.
  intros st'. subst st'. unfold process_updates.
  generalize (default 0 (offset st)). revert st w.
  induction updates as [|u us IH]; intros st w off.
  { split; [done|]. intros k ts Hk. by left. }
  cbn [foldl].
  pose proof (λ k, track_keeps_keys cfg (pbp_topic_ids cfg) off st w u k) as Hkeep.
  pose proof (λ k ts, track_lookup cfg off st w u k ts) as Hstep.
  destruct (track cfg (pbp_topic_ids cfg) (off, st, w) u) as [[off1 st1] w1].
  simpl in Hkeep, Hstep. destruct (IH st1 w1 off1) as [IH1 IH2]. split.
  - intros k Hk. by apply IH1, Hkeep.
  - intros k ts Hk. destruct (IH2 k ts Hk) as [Hold|(u' & msg & pair & Hin & Hrest)].
    + destruct (Hstep k ts Hold) as [|(msg & Hq & Hu & Hc)]; [by left|].
      right. destruct (pbp_topic_ids cfg !! k) as [campaign|] eqn:Hids.
      * destruct (proj1 (pbp_topic_ids_lookup cfg k) _ Hids)
          as (pair & Hin & Hkey & Hn).
        exists u, msg, pair. rewrite Hn.
        repeat split; try done; try apply Hq. apply list_elem_of_here.
      * destruct Hq as (_ & _ & (thread & _ & -> & pair & Hin & Hid) & _).
        destruct (proj2 (pbp_topic_ids_lookup cfg (str thread))) as [c Hcs].
        { exists pair. unfold key_of. by rewrite Hid. }
        congruence.
    + right. exists u', msg, pair. split; [by apply list_elem_of_further|done].
Qed.

(** X3. The stored offset never goes back over a run of [main]; without
    updates the offset key is not even written; and a batch delivered again
    after its offset was stored returns that same offset. *)
Theorem offset_never_decreases cfg st updates w :
  let after := checked_state (main_body cfg st updates w) in
  default 0 (offset st) ≤ default 0 (offset after)
  ∧ (updates = [] → offset after = offset st)
  ∧ (∀ u, u ∈ updates → update_id u < default 0 (offset after))
  ∧ (∀ w', new_offset_of (process_updates updates cfg after w')
           = default 0 (offset after)).
Proof.
  intros after. subst after.
  assert (∀ st w, offset (checked_state (check_and_alert cfg st w)) = offset st)
    as Hmon.
  { intros st' w'. rewrite check_and_alert_unfold.
    by destruct (monitor_loop_frame cfg (alert_hours_of cfg) (utcnow w').1
                   (with_alerts st') (utcnow w').2 (topic_pairs cfg)) as (_ & ? & _). }
  unfold main_body. destruct updates as [|u us].
  { rewrite Hmon. split; [done|]. split; [done|]. split.
    - intros u Hu. by apply elem_of_nil in Hu.
    - intros w'. unfold process_updates. simpl. by rewrite Hmon. }
  assert (∃ m, max_update_id (u :: us) = Some m) as [m Hmax] by (by eexists).
  cbn iota. remember (u :: us) as batch eqn:Hbatch. clear Hbatch.
  pose proof (foldl_track_offset cfg (pbp_topic_ids cfg) batch
                (default 0 (offset st)) st w) as Hoff.
  rewrite running_max_closed, Hmax in Hoff.
  fold (process_updates batch cfg st w) in Hoff.
  destruct (process_updates batch cfg st w) as [[off st1] w1]. simpl in Hoff.
  rewrite Hmon. simpl.
  split; [lia|]. split; [by intros ->|]. split.
  - intros u' Hu'. destruct (max_update_id_bound _ _ Hu') as (m' & Hm' & Hle).
    rewrite Hmax in Hm'. simplify_eq. lia.
  - intros w'. unfold process_updates. rewrite foldl_track_offset.
    rewrite running_max_closed, Hmax, Hmon. simpl. lia.
Qed.

(** ** The monitor *)



End checker_coverage.

(** * Further properties of the importer *)

Section importer_coverage.
Import Importer ImporterSpec ImporterTerms.
Implicit Types (cfg : config) (exp : export) (files : fs) (msg : message).

Lemma fold_insert_lookup (c : string) (ids : list Z) (m : gmap Z string) t :
  foldl (λ mapping tid, <[tid := c]> mapping) m ids !! t
  = if decide (t ∈ ids) then Some c else m !! t.
Proof.
  revert m. induction ids as [|x ids IH]; intros m.
  - cbn [foldl]. case_decide as Hin; [by apply elem_of_nil in Hin|done].
  - cbn [foldl]. rewrite IH.
    destruct (decide (t ∈ ids)) as [Hin|Hnin].
    + rewrite decide_True; [done|]. by right.
    + destruct (decide (t = x)) as [->|Hne].
      * rewrite lookup_insert_eq. rewrite decide_True; [done|]. by left.
      * rewrite lookup_insert_ne by done. rewrite decide_False; [done|].
        rewrite elem_of_cons. intuition.
Qed.

Lemma thread_map_snoc (pairs : list topic_pair) p (m0 : gmap Z string) t :
  foldl (λ mapping pair,
           foldl (λ mapping tid, <[tid := name pair]> mapping) mapping
                 (default [] (pbp_topic_ids pair))) m0 (pairs ++ [p]) !! t
  = if decide (t ∈ listed_ids p) then Some (name p)
    else foldl (λ mapping pair,
           foldl (λ mapping tid, <[tid := name pair]> mapping) mapping
                 (default [] (pbp_topic_ids pair))) m0 pairs !! t.
Proof. rewrite foldl_app. simpl. by rewrite fold_insert_lookup. Qed.

(** X7. [build_thread_map]: a topic id is mapped to the name of the last
    pair of the configuration that lists it among its [pbp_topic_ids], and
    is absent from the map exactly when no pair lists it. *)
Theorem build_thread_map_last_pair_wins cfg t :
  let pairs := default [] (topic_pairs cfg) in
  (∀ c, build_thread_map cfg !! t = Some c
        ↔ ∃ i pair, pairs !! i = Some pair ∧ t ∈ listed_ids pair
                    ∧ name pair = c
                    ∧ ∀ j p, (i < j)%nat → pairs !! j = Some p →
                             t ∉ listed_ids p)
  ∧ (build_thread_map cfg !! t = None
     ↔ ∀ pair, pair ∈ pairs → t ∉ listed_ids pair).
Proof.
  intros pairs. unfold build_thread_map. fold pairs. clearbody pairs.
  induction pairs as [|p pairs [IH1 IH2]] using rev_ind.
  - simpl. split.
    + intros c. rewrite lookup_empty. split; [done|].
      by intros (i & pair & Hi & _).
    + split; [|done]. intros _ pair Hp. by apply elem_of_nil in Hp.
  - split.
    + intros c. rewrite thread_map_snoc.
      destruct (decide (t ∈ listed_ids p)) as [Hin|Hnin].
      * split.
        -- intros [= <-]. exists (length pairs), p.
           split; [by rewrite lookup_app_r, Nat.sub_diag by lia|].
           split; [done|]. split; [done|].
           intros j q Hj Hq. apply lookup_lt_Some in Hq.
           rewrite length_app in Hq. simpl in Hq. lia.
        -- intros (i & pair & Hi & Ht & Hn & Hlast).
           destruct (decide (i = length pairs)) as [->|Hne].
           ++ rewrite lookup_app_r, Nat.sub_diag in Hi by lia.
              simpl in Hi. by simplify_eq.
           ++ pose proof (lookup_lt_Some _ _ _ Hi) as Hlt.
              rewrite length_app in Hlt. simpl in Hlt.
              destruct (Hlast (length pairs) p); [lia| |done].
              by rewrite lookup_app_r, Nat.sub_diag by lia.
      * rewrite IH1. split.
        -- intros (i & pair & Hi & Ht & Hn & Hlast).
           exists i, pair. split; [by apply lookup_app_l_Some|].
           split; [done|]. split; [done|].
           intros j q Hj Hq.
           destruct (decide (j = length pairs)) as [->|Hne].
           ++ rewrite lookup_app_r, Nat.sub_diag in Hq by lia.
              simpl in Hq. by simplify_eq.
           ++ pose proof (lookup_lt_Some _ _ _ Hq) as Hlt.
              rewrite length_app in Hlt. simpl in Hlt.
              rewrite lookup_app_l in Hq by lia. by eapply Hlast.
        -- intros (i & pair & Hi & Ht & Hn & Hlast).
           destruct (decide (i = length pairs)) as [->|Hne].
           ++ rewrite lookup_app_r, Nat.sub_diag in Hi by lia.
              simpl in Hi. by simplify_eq.
           ++ pose proof (lookup_lt_Some _ _ _ Hi) as Hlt.
              rewrite length_app in Hlt. simpl in Hlt.
              rewrite lookup_app_l in Hi by lia.
              exists i, pair. split; [done|]. split; [done|]. split; [done|].
              intros j q Hj Hq. apply (Hlast j q Hj).
              by apply lookup_app_l_Some.
    + rewrite thread_map_snoc.
      destruct (decide (t ∈ listed_ids p)) as [Hin|Hnin].
      * split; [done|]. intros Hall. destruct (Hall p); [|done].
        apply elem_of_app. right. by left.
      * rewrite IH2. split.
        -- intros Hall pair [Hp|Hp%list_elem_of_singleton]%elem_of_app.
           ++ by apply Hall.
           ++ by subst.
        -- intros Hall pair Hp. apply Hall, elem_of_app. by left.
Qed.


Lemma gm_map_snoc cfg (pairs : list topic_pair) p (m0 : gmap string (gset string)) c :
  foldl (λ gm_map pair,
           match pair_gm_user_ids pair with
           | Some uids => <[name pair := uid_set uids]> gm_map
           | None => <[name pair := uid_set (default [] (gm_user_ids cfg))]> gm_map
           end) m0 (pairs ++ [p]) !! c
  = if decide (c = name p) then Some (uid_set (gm_ids_of cfg p))
    else foldl (λ gm_map pair,
           match pair_gm_user_ids pair with
           | Some uids => <[name pair := uid_set uids]> gm_map
           | None => <[name pair := uid_set (default [] (gm_user_ids cfg))]> gm_map
           end) m0 pairs !! c.
Proof.
  rewrite foldl_app. cbn [foldl]. unfold gm_ids_of.
  case_decide as Hc.
  - subst c. destruct (pair_gm_user_ids p); by rewrite lookup_insert_eq.
  - destruct (pair_gm_user_ids p); by rewrite lookup_insert_ne.
Qed.

Lemma build_gm_map_lookup cfg c :
  let pairs := default [] (topic_pairs cfg) in
  (∀ i pair, pairs !! i = Some pair → name pair = c →
     (∀ j p, (i < j)%nat → pairs !! j = Some p → name p ≠ c) →
     build_gm_map cfg !! c = Some (uid_set (gm_ids_of cfg pair)))
  ∧ ((∀ pair, pair ∈ pairs → name pair ≠ c) → build_gm_map cfg !! c = None).
Proof.
  intros pairs. unfold build_gm_map. fold pairs. clearbody pairs.
  induction pairs as [|p pairs [IH1 IH2]] using rev_ind; [by split|].
  rewrite gm_map_snoc. split.
  - intros i pair Hi Hn Hlast.
    pose proof (lookup_lt_Some _ _ _ Hi) as Hlt.
    rewrite length_app in Hlt. simpl in Hlt.
    destruct (decide (i = length pairs)) as [->|Hne].
    + rewrite lookup_app_r, Nat.sub_diag in Hi by lia. simpl in Hi.
      simplify_eq. by rewrite decide_True.
    + rewrite lookup_app_l in Hi by lia.
      rewrite decide_False.
      * apply (IH1 i pair Hi Hn). intros j q Hj Hq. apply (Hlast j q Hj).
        by apply lookup_app_l_Some.
      * intros Hc. destruct (Hlast (length pairs) p); [lia| |done].
        by rewrite lookup_app_r, Nat.sub_diag by lia.
  - intros Hall. rewrite decide_False.
    + apply IH2. intros pair Hp. apply Hall, elem_of_app. by left.
    + intros Hc. destruct (Hall p); [|done]. apply elem_of_app. right. by left.
Qed.

Lemma str_chars (test : ascii → bool) n :
  test "-"%char = true → (∀ d, test (pretty_N_char d) = true) →
  all_chars test (str n) = true.
Proof.
  intros Hminus Hd.
  assert (∀ p : positive, all_chars test (pretty p) = true) as Hpos.
  { intros p. unfold pretty, pretty_positive, pretty, pretty_N.
    destruct (decide (N.pos p = 0%N)); [done|]. by apply pretty_N_go_all. }
  destruct n as [|p|p].
  - pose proof (Hd 0%N) as H0. change (str 0) with "0". simpl in *.
    by rewrite H0.
  - apply Hpos.
  - change (str (Z.neg p)) with (String "-" (pretty p)). simpl.
    by rewrite Hminus, Hpos.
Qed.

Lemma remove_all_go_absent s :
  all_chars (λ c, negb (Ascii.eqb c "u")) s = true →
  remove_all_go "user" 0 s = s.
Proof.
  induction s as [|c s IH]; [done|]. intros [Hc Hs]%andb_true_iff.
  cbn [remove_all_go String.prefix].
  destruct (ascii_dec "u" c) as [<-|_]; [done|]. by rewrite IH.
Qed.

Lemma remove_user_prefix n : remove_all "user" ("user" +:+ str n) = str n.
Proof.
  unfold remove_all. change ("user" +:+ str n) with
    (String "u" (String "s" (String "e" (String "r" (str n))))).
  cbn. assert (String.prefix "" (str n) = true) as -> by (by destruct (str n)).
  apply remove_all_go_absent, str_chars; [done|].
  intros d. unfold pretty_N_char. by repeat case_match.
Qed.

Lemma elem_of_uid_set n uids : str n ∈ uid_set uids ↔ n ∈ uids.
Proof.
  unfold uid_set. rewrite elem_of_list_to_set, list_elem_of_fmap. split.
  - intros (k & Hk & Hin). unfold str in Hk.
    by apply (inj pretty) in Hk as ->.
  - intros Hin. by exists n.
Qed.

(** X8. [build_gm_map] and the sender test of the month loop: for the
    last pair with a given name, a sender whose ["from_id"] is ["user"]
    followed by the decimal numeral of [n] is tagged as game master exactly
    when [n] is in the pair's own [gm_user_ids] list if it has one (even an
    empty one), and in the global list otherwise. *)
Theorem gm_tag_follows_configuration cfg i pair n msg :
  let pairs := default [] (topic_pairs cfg) in
  pairs !! i = Some pair →
  (∀ j p, (i < j)%nat → pairs !! j = Some p → name p ≠ name pair) →
  from_id msg = Some ("user" +:+ str n) →
  is_gm_sender (default ∅ (build_gm_map cfg !! name pair)) msg = true
  ↔ n ∈ gm_ids_of cfg pair.
Proof.
  intros pairs Hi Hlast Hfrom.
  destruct (build_gm_map_lookup cfg (name pair)) as [Hl _].
  rewrite (Hl i pair Hi eq_refl Hlast). simpl.
  unfold is_gm_sender. rewrite Hfrom.
  change (default "" (Some ("user" +:+ str n))) with ("user" +:+ str n).
  rewrite remove_user_prefix, bool_decide_eq_true. apply elem_of_uid_set.
Qed.

Lemma filter_chars_all keep s : all_chars keep (filter_chars keep s) = true.
Proof.
  induction s as [|c s IH]; [done|]. simpl.
  destruct (keep c) eqn:E; [|done]. simpl. by rewrite E, IH.
Qed.

Lemma filter_chars_id keep s :
  all_chars keep s = true → filter_chars keep s = s.
Proof.
  induction s as [|c s IH]; [done|]. simpl.
  intros [Hc Hs]%andb_true_iff. by rewrite Hc, IH.
Qed.

Lemma replace_char_absent a b s :
  all_chars (λ c, negb (Ascii.eqb c a)) s = true → replace_char a b s = s.
Proof.
  induction s as [|c s IH]; [done|]. simpl.
  intros [Hc Hs]%andb_true_iff. apply negb_true_iff in Hc.
  by rewrite Hc, IH.
Qed.

Lemma replace_space_dir_chars s :
  all_chars (λ c, py_isalnum c || bool_decide (c ∈ [" "; "-"; "_"]%char)) s
  = true →
  all_chars dir_char (replace_char " " "_" s) = true.
Proof.
  induction s as [|c s IH]; [done|]. simpl.
  intros [Hc Hs]%andb_true_iff. rewrite (IH Hs), andb_true_r.
  destruct (Ascii.eqb c " ") eqn:E; [done|].
  apply Ascii.eqb_neq in E. unfold dir_char.
  apply orb_true_iff in Hc as [->|Hc]; [done|].
  apply bool_decide_eq_true in Hc.
  apply orb_true_iff. right. apply bool_decide_eq_true.
  rewrite !elem_of_cons in Hc. rewrite !elem_of_cons. intuition.
Qed.

Lemma dir_char_spec c :
  dir_char c = true →
  plain c = true ∧ c ≠ "/"%char ∧ c ≠ "."%char ∧ c ≠ " "%char.
Proof.
  unfold dir_char. intros Hc.
  destruct c as [[] [] [] [] [] [] [] []]; vm_compute in Hc; try done;
    by repeat split.
Qed.

(** X9. [sanitize_dirname] on an ASCII name (where [isalnum] is the test for
    ASCII letters and digits): the result is made of letters, digits, [-]
    and [_] only, so it holds no white space, no [/] and no [.]; sanitizing
    it again changes nothing, and a name already made of these characters is
    returned unchanged. *)
Theorem sanitize_dirname_alphabet name :
  all_chars is_ascii name = true →
  all_chars dir_char (sanitize_dirname name) = true
  ∧ all_chars (λ c, plain c && negb (Ascii.eqb c "/")
                    && negb (Ascii.eqb c "."))
              (sanitize_dirname name) = true
  ∧ sanitize_dirname (sanitize_dirname name) = sanitize_dirname name
  ∧ (all_chars dir_char name = true → sanitize_dirname name = name).
Proof.
  intros _.
  assert (all_chars dir_char (sanitize_dirname name) = true) as Hdir.
  { unfold sanitize_dirname. apply replace_space_dir_chars, strip_all,
      filter_chars_all. }
  assert (∀ s, all_chars dir_char s = true → sanitize_dirname s = s) as Hid.
  { intros s Hs. unfold sanitize_dirname.
    rewrite filter_chars_id.
    - rewrite strip_plain.
      + apply replace_char_absent. revert Hs. apply all_chars_impl.
        intros c Hc. apply dir_char_spec in Hc as (_ & _ & _ & Hc).
        apply negb_true_iff. by apply Ascii.eqb_neq.
      + revert Hs. apply all_chars_impl.
        intros c Hc. by apply dir_char_spec in Hc as (Hc & _).
    - revert Hs. apply all_chars_impl. unfold dir_char.
      intros c [->|Hc]%orb_true_iff; [done|].
      apply orb_true_iff. right. apply bool_decide_eq_true in Hc.
      apply bool_decide_eq_true. rewrite !elem_of_cons in Hc.
      rewrite !elem_of_cons. intuition. }
  split; [done|]. split; [|split; [by apply Hid|apply Hid]].
  revert Hdir. apply all_chars_impl.
  intros c Hc. apply dir_char_spec in Hc as (Hs & Hslash & Hdot & _).
  rewrite Hs. apply Ascii.eqb_neq in Hslash, Hdot. by rewrite Hslash, Hdot.
Qed.

Lemma classify_step tm (acc : gmap string (list message)) m c :
  classify tm acc m !! c
  = if decide (candidate tm c m) then Some (default [] (acc !! c) ++ [m])
    else acc !! c.
Proof.
  destruct (decide (candidate tm c m)) as [(Ht & Hth & Ha)|Hno];
    unfold classify, append_at.
  - rewrite (bool_decide_eq_true_2 _ Ht). cbn [negb].
    destruct (thread_of m) as [t|]; [|done]. cbn in Hth.
    by rewrite Hth, Ha, lookup_insert_eq.
  - destruct (bool_decide (type m = Some "message")) eqn:Ht; [|done].
    apply bool_decide_eq_true in Ht. cbn [negb].
    destruct (thread_of m) as [t|] eqn:Hth; [|done].
    destruct (tm !! t) as [c'|] eqn:Hc'; [|done].
    destruct (truthy (action m)) eqn:Ha; [done|].
    rewrite lookup_insert_ne; [done|]. intros ->. apply Hno.
    unfold candidate. rewrite Hth. by cbn.
Qed.

Lemma classify_fold_lookup tm l (acc : gmap string (list message)) c :
  foldl (classify tm) acc l !! c
  = match acc !! c, filter (candidate tm c) l with
    | Some old, found => Some (old ++ found)
    | None, [] => None
    | None, found => Some found
    end.
Proof.
  revert acc. induction l as [|m l IH]; intros acc.
  - cbn [foldl]. rewrite filter_nil. destruct (acc !! c); [|done].
    by rewrite app_nil_r.
  - cbn [foldl]. rewrite IH, classify_step, filter_cons.
    destruct (decide (candidate tm c m)).
    + destruct (acc !! c) as [old|]; cbn [default].
      * by rewrite <- app_assoc.
      * done.
    + done.
Qed.

Lemma classification_lookup cfg exp c :
  pbp_messages_of cfg exp !! c
  = match filter (candidate (build_thread_map cfg) c)
                 (default [] (messages exp)) with
    | [] => None
    | found => Some found
    end.
Proof.
  unfold pbp_messages_of. by rewrite classify_fold_lookup, lookup_empty.
Qed.


Lemma import_loop_dom dry gm items files results :
  dom (import_loop dry gm files results items).2
  = dom results ∪ list_to_set items.*1.
Proof.
  rewrite <- (dom_fmap_L (λ _, O) (import_loop dry gm files results items).2).
  rewrite import_loop_zeroed.
  rewrite <- (dom_fmap_L (λ _ : nat, O) results).
  generalize ((λ _ : nat, O) <$> results). clear results.
  induction items as [|[c msgs] items IH]; intros r.
  - cbn. by rewrite (right_id_L ∅ (∪)).
  - cbn [foldl]. rewrite IH, dom_insert_L. cbn.
    by rewrite (assoc_L (∪)), (comm_L (∪) {[c]}).
Qed.

(** X11. In both modes the returned dictionary has an entry for a campaign
    exactly when the export holds a record classified under it; when no
    record of the export is classified, the run returns the empty dictionary
    and leaves the files untouched. *)
Theorem results_list_found_campaigns cfg exp dry files :
  let r := import_messages cfg exp dry files in
  (∀ c, is_Some (r.2 !! c)
        ↔ ∃ m, m ∈ default [] (messages exp)
               ∧ candidate (build_thread_map cfg) c m)
  ∧ ((∀ m c, m ∈ default [] (messages exp) →
             ¬ candidate (build_thread_map cfg) c m) →
     r = (files, ∅)).
Proof.
  intros r. subst r. rewrite import_messages_loop. split.
  - intros c. rewrite <- elem_of_dom, import_loop_dom, dom_empty_L.
    rewrite (left_id_L ∅ (∪)), elem_of_list_to_set, list_elem_of_fmap.
    split.
    + intros ([c' msgs] & -> & Hin). apply campaigns_of_lookup in Hin.
      cbn [fst] in *.
      pose proof (classification_lookup cfg exp c') as Hl.
      rewrite Hin in Hl.
      destruct (filter _ _) as [|m found] eqn:Hf; [done|].
      exists m.
      assert (m ∈ filter (candidate (build_thread_map cfg) c')
                    (default [] (messages exp))) as Hm
        by (rewrite Hf; by left).
      by apply list_elem_of_filter in Hm as [? ?].
    + intros (m & Hin & Hc).
      pose proof (classification_lookup cfg exp c) as Hl.
      destruct (filter _ _) as [|m' found] eqn:Hf.
      * assert (m ∈ filter (candidate (build_thread_map cfg) c)
                      (default [] (messages exp))) as Hm
          by by apply list_elem_of_filter.
        rewrite Hf in Hm. by apply elem_of_nil in Hm.
      * exists (c, m' :: found). split; [done|]. by apply campaigns_of_lookup.
  - intros Hnone.
    assert (pbp_messages_of cfg exp = ∅) as Hempty.
    { apply map_eq. intros c. rewrite lookup_empty, classification_lookup.
      destruct (filter _ _) as [|m found] eqn:Hf; [done|].
      assert (m ∈ filter (candidate (build_thread_map cfg) c)
                    (default [] (messages exp))) as Hm
        by (rewrite Hf; by left).
      apply list_elem_of_filter in Hm as [Hc Hin]. by destruct (Hnone m c). }
    unfold campaigns_of. rewrite Hempty. by vm_compute.
Qed.


#[local] Instance date_le_trans : Transitive date_le.
Proof. intros a b c Hab Hbc. unfold date_le in *. by etrans. Qed.

Lemma insert_by_sorted x (l : list message) :
  StronglySorted date_le l → StronglySorted date_le (insert_by date_of x l).
Proof.
  induction 1 as [|y l Hl IH Hy]; cbn [insert_by].
  - by repeat constructor.
  - destruct (String.leb (date_of x) (date_of y)) eqn:Hxy.
    + assert (date_le x y) as Hle by (unfold date_le, String.le; by rewrite Hxy).
      constructor; [by constructor|]. constructor; [done|].
      eapply Forall_impl; [exact Hy|]. intros z Hz. by etrans.
    + constructor; [done|].
      rewrite insert_by_perm. constructor; [|done].
      destruct (total String.le (date_of x) (date_of y)) as [Hle|Hle]; [|done].
      unfold String.le in Hle. by rewrite Hxy in Hle.
Qed.

Lemma sorted_by_sorted (l : list message) :
  StronglySorted date_le (sorted_by date_of l).
Proof.
  induction l as [|x l IH]; [constructor|]. by apply insert_by_sorted.
Qed.

Lemma insert_by_same_date d x (l : list message) :
  filter (λ m, date_of m = d) (insert_by date_of x l)
  = filter (λ m, date_of m = d) (x :: l).
Proof.
  induction l as [|y l IH]; [done|]. cbn [insert_by].
  destruct (String.leb (date_of x) (date_of y)) eqn:Hxy; [done|].
  rewrite filter_cons, IH, !filter_cons.
  destruct (decide (date_of y = d)) as [Hy|Hy]; [|done].
  destruct (decide (date_of x = d)) as [Hx|Hx]; [|done].
  exfalso. assert (String.le (date_of x) (date_of y)) as Hle
    by (rewrite Hx, Hy; reflexivity).
  unfold String.le in Hle. by rewrite Hxy in Hle.
Qed.

Lemma sorted_by_stable d (l : list message) :
  filter (λ m, date_of m = d) (sorted_by date_of l)
  = filter (λ m, date_of m = d) l.
Proof.
  induction l as [|x l IH]; [done|]. cbn [sorted_by foldr].
  change (foldr (insert_by date_of) [] l) with (sorted_by date_of l).
  by rewrite insert_by_same_date, !filter_cons, IH.
Qed.

Lemma filter_sorted {A} (R : relation A) (P : A → Prop)
    `{∀ x, Decision (P x)} (l : list A) :
  StronglySorted R l → StronglySorted R (filter P l).
Proof.
  induction 1 as [|x l Hl IH Hx]; [constructor|].
  rewrite filter_cons. destruct (decide (P x)); [|done].
  constructor; [done|]. apply Forall_forall. intros y Hy.
  apply list_elem_of_filter in Hy as [_ Hy].
  by eapply Forall_forall in Hx.
Qed.

(** X12. The month loop: the messages are visited in non-decreasing order
    of their ["date"] strings, messages with equal dates in the order of the
    export; the list of a month is the sub-list of the visited messages
    that are new and fall in that month, so it is never empty, is in date
    order, and holds exactly the candidates of that month whose id is not
    imported. *)
Theorem month_lists_in_date_order imported msgs :
  let in_order := sorted_by date_of msgs in
  let by_month := (group_by_month imported msgs).1 in
  (StronglySorted date_le in_order
   ∧ ∀ d, filter (λ m, date_of m = d) in_order
          = filter (λ m, date_of m = d) msgs)
  ∧ (∀ k, by_month !! k
          = match filter (new_in_month imported k) in_order with
            | [] => None
            | found => Some found
            end)
  ∧ (∀ k l, by_month !! k = Some l →
       l ≠ [] ∧ StronglySorted date_le l
       ∧ ∀ m, m ∈ l ↔ m ∈ msgs ∧ (msg_id m ∉ imported) ∧ k ≠ ""
                       ∧ month_of m = k).
Proof.
  intros in_order by_month.
  assert (∀ k, by_month !! k
          = match filter (new_in_month imported k) in_order with
            | [] => None
            | found => Some found
            end) as Hlookup.
  { intros k. subst by_month. unfold group_by_month.
    rewrite group_fold_lookup, lookup_empty. done. }
  split; [split; [apply sorted_by_sorted|intros d; apply sorted_by_stable]|].
  split; [done|]. intros k l Hl. rewrite Hlookup in Hl.
  assert (l = filter (new_in_month imported k) in_order ∧ l ≠ []) as [-> Hne].
  { destruct (filter _ _); by simplify_eq. }
  split; [done|]. split; [apply filter_sorted, sorted_by_sorted|].
  intros m. rewrite list_elem_of_filter. unfold in_order.
  rewrite (sorted_by_perm date_of msgs). unfold new_in_month, is_new.
  split.
  - intros [[[Hid Hmonth] Hk] Hin]. subst k. done.
  - intros (Hin & Hid & Hk & Hm). subst k. done.
Qed.


Lemma extends_refl files : extends files files.
Proof.
  intros d f content _ Hf. exists "". by rewrite string_app_nil_r.
Qed.

Lemma extends_trans files1 files2 files3 :
  extends files1 files2 → extends files2 files3 → extends files1 files3.
Proof.
  intros H12 H23 d f content Hf Hc.
  destruct (H12 d f content Hf Hc) as [s1 H1].
  destruct (H23 d f _ Hf H1) as [s2 H2].
  exists (s1 +:+ s2). by rewrite <- string_app_assoc.
Qed.

Lemma write_month_extends c d gm files ids item :
  extends files (write_month c d gm (files, ids) item).1.
Proof.
  destruct item as [k l]. intros d' f' content Hf Hc.
  rewrite file_at_write_month. case_decide as Hhit.
  - destruct Hhit as [-> ->]. rewrite Hc. by eexists.
  - rewrite Hc. exists "". by rewrite string_app_nil_r.
Qed.

Lemma write_months_extends c d gm items files ids :
  extends files (foldl (write_month c d gm) (files, ids) items).1.
Proof.
  revert files ids. induction items as [|item items IH]; intros files ids.
  - apply extends_refl.
  - cbn [foldl].
    destruct (write_month c d gm (files, ids) item) as [files' ids'] eqn:E.
    eapply extends_trans; [|apply IH].
    pose proof (write_month_extends c d gm files ids item) as Hx.
    by rewrite E in Hx.
Qed.

Lemma import_campaign_extends gm files results item :
  extends files (import_campaign false gm (files, results) item).1.
Proof.
  destruct item as [c msgs]. unfold import_campaign.
  assert (extends files (mkdir (sanitize_dirname c) files)) as Hmk.
  { intros d f content _ Hc. exists "".
    by rewrite file_at_mkdir, string_app_nil_r. }
  destruct (group_by_month _ msgs) as [by_month [|n]]; [done|].
  destruct (foldl _ _ _) as [files' new_ids] eqn:E. cbn [fst].
  eapply extends_trans; [exact Hmk|].
  pose proof (write_months_extends c (sanitize_dirname c)
                (default ∅ (gm !! c)) (sorted_items by_month)
                (mkdir (sanitize_dirname c) files) ∅) as Hx.
  rewrite E in Hx. eapply extends_trans; [exact Hx|].
  intros d f content Hf Hc. exists "".
  by rewrite file_at_save, string_app_nil_r.
Qed.

Lemma import_loop_extends gm items files results :
  extends files (import_loop false gm files results items).1.
Proof.
  revert files results. induction items as [|item items IH];
    intros files results.
  - apply extends_refl.
  - rewrite import_loop_cons. cbn zeta.
    eapply extends_trans; [|apply IH]. apply import_campaign_extends.
Qed.

(** X13. A real import never truncates or rewrites a file other than the
    tracking file: whatever a file held before the run is a prefix of what
    it holds afterwards. *)
Theorem transcripts_only_grow cfg exp files d f content :
  f ≠ tracker →
  file_at files d f = Some content →
  ∃ suffix,
    file_at (import_messages cfg exp false files).1 d f
    = Some (content +:+ suffix).
Proof.
  rewrite import_messages_loop. apply import_loop_extends.
Qed.

(** X14. The month file of one campaign after its import: when the month
    has new messages, the file holds its previous content (the header when
    it did not exist) followed by the entries of these messages in date
    order, each tagged for the campaign's game masters; when it has none,
    the file is as before. *)
Theorem month_file_content gm files results c msgs k :
  let d := campaign_dir_of c in
  let imported := get_imported_ids files d in
  let r := import_campaign false gm (files, results) (c, msgs) in
  let found := filter (new_in_month imported k) (sorted_by date_of msgs) in
  file_at r.1 d (k +:+ ".md")
  = match found with
    | [] => file_at files d (k +:+ ".md")
    | _ => Some (default (header c k) (file_at files d (k +:+ ".md"))
                 +:+ entries (default ∅ (gm !! c)) found)
    end.
Proof.
  intros d imported r found.
  apply (import_campaign_month_file gm files results c msgs k).
Qed.


Lemma split_join l :
  l ≠ [] →
  Forall (λ x, all_chars (λ c, negb (Ascii.eqb c nl_char)) x = true) l →
  split nl_char (join nl l) = l.
Proof.
  induction l as [|x l IH]; [done|]. intros _ Hall.
  apply Forall_cons in Hall as [Hx Hl].
  destruct l as [|y l]; [by apply split_without_sep|].
  change (join nl (x :: y :: l))
    with (x +:+ String nl_char (join nl (y :: l))).
  rewrite split_app_sep, (split_without_sep _ x Hx), IH; done.
Qed.

(** X15. The tracking file round trip: a non-empty set of ids made of
    plain characters (ASCII, no white space) is read back exactly as it was
    saved; the empty set is read back as the set that holds the empty
    string. *)
Theorem tracker_round_trip files d (ids : gset string) :
  (ids ≠ ∅ → (∀ x, x ∈ ids → clean x) →
   get_imported_ids (save_imported_ids files d ids) d = ids)
  ∧ get_imported_ids (save_imported_ids files d ∅) d = {[""]}.
Proof.
  split.
  - intros Hne Hclean. rewrite get_imported_ids_save. unfold tracker_content.
    assert (sorted (elements ids) ≡ₚ elements ids) as Hperm
      by apply merge_sort_Permutation.
    generalize dependent (sorted (elements ids)). intros l Hperm.
    assert (Forall clean l) as Hall.
    { apply Forall_forall. intros x Hx. apply Hclean.
      rewrite Hperm in Hx. by apply elem_of_elements in Hx. }
    assert (l ≠ []) as Hl.
    { intros Hnil. rewrite Hnil in Hperm. symmetry in Hperm.
      apply Permutation_nil_r, elements_empty_inv in Hperm.
      by apply Hne, leibniz_equiv. }
    destruct l as [|x l']; [done|].
    pose proof (Forall_inv Hall) as Hx.
    unfold strip. rewrite lstrip_join by done.
    rewrite rstrip_join by done. rewrite split_join; [|done|].
    + rewrite Hperm. apply list_to_set_elements_L.
    + eapply Forall_impl; [exact Hall|]. intros y. apply clean_no_newline.
  - rewrite get_imported_ids_save. by vm_compute.
Qed.

(** X16. [extract_text] returns a text without leading or trailing white
    space, in the sense of [str.strip()] (the Unicode white-space characters
    included): stripping it again changes nothing. *)
Theorem extract_text_is_stripped msg :
  strip (extract_text msg) = extract_text msg.
Proof.
  unfold extract_text.
  set (fallback := match default [] (text_entities msg) with
                   | [] => ""
                   | entities => strip (concat_str (entities ≫= entity_text))
                   end).
  assert (strip fallback = fallback) as Hfb.
  { subst fallback. destruct (default [] (text_entities msg)); [done|].
    apply strip_idem. }
  assert (∀ s, strip (match strip s with "" => fallback | r => r end)
               = match strip s with "" => fallback | r => r end) as Hs.
  { intros s. destruct (strip s) eqn:E; [done|]. rewrite <- E.
    apply strip_idem. }
  destruct (default (TextStr "") (text msg)) as [s|[|ch chunks]|];
    [apply Hs|done|apply Hs|done].
Qed.

(** X17. A real import removes no directory and no recorded id (ids of
    plain characters, as [str] produces them). *)
Theorem import_never_forgets cfg exp files :
  let after := (import_messages cfg exp false files).1 in
  (∀ d, is_Some (files !! d) → is_Some (after !! d))
  ∧ (∀ d x, clean x → x ∈ get_imported_ids files d →
            x ∈ get_imported_ids after d).
Proof.
  intros after. subst after. rewrite import_messages_loop.
  apply import_loop_monotone.
Qed.


Lemma prefix_nil s : String.prefix "" s = true.
Proof. by destruct s. Qed.

(** X18. [format_entry] after [detect_media]: the tag is always one of the
    five fixed words, a sticker tag or a document tag; the prefix that
    [detect_media] puts in front of a sticker's emoji or a document's file
    name is taken off again, so that the entry shows [sticker] and the
    emoji, the bare file name, or the fixed word between the brackets,
    followed by the text if there is one; without media the entry shows the
    text, or the placeholder when there is no text either. *)
Theorem media_tag_rendering msg (is_gm : bool) :
  let first_line :=
    "**" +:+ default "Unknown" (from msg) +:+ "**"
      +:+ (if is_gm then " [GM]" else "") +:+ " ("
      +:+ replace_char "T" " " (take_str 19 (default "" (date msg)))
      +:+ "):" +:+ nl in
  let body (label : string) :=
    match extract_text msg with
    | "" => "*[" +:+ label +:+ "]*"
    | t => ("*[" +:+ label +:+ "]*") +:+ " " +:+ t
    end in
  let entry (label : string) := first_line +:+ body label +:+ nl in
  (detect_media msg = None
   ∨ (∃ e, detect_media msg = Some ("sticker:" +:+ e))
   ∨ (∃ f, detect_media msg = Some ("document:" +:+ f))
   ∨ ∃ tag, tag ∈ ["gif"; "video"; "voice message"; "video note"; "image"]
            ∧ detect_media msg = Some tag)
  ∧ (∀ e, detect_media msg = Some ("sticker:" +:+ e) →
          format_entry msg is_gm = entry ("sticker " +:+ e))
  ∧ (∀ f, detect_media msg = Some ("document:" +:+ f) →
          format_entry msg is_gm = entry f)
  ∧ (∀ tag, tag ∈ ["gif"; "video"; "voice message"; "video note"; "image"] →
            detect_media msg = Some tag →
            format_entry msg is_gm = entry tag)
  ∧ (detect_media msg = None →
     format_entry msg is_gm
     = first_line +:+ match extract_text msg with
                      | "" => "*[empty message]*"
                      | t => t
                      end +:+ nl).
Proof.
  intros first_line body entry. split; [|split; [|split; [|split]]].
  - unfold detect_media.
    case_bool_decide; [do 3 right; eexists; split; [|reflexivity];
                       rewrite !elem_of_cons; by auto 10|].
    case_bool_decide; [do 3 right; eexists; split; [|reflexivity];
                       rewrite !elem_of_cons; by auto 10|].
    case_bool_decide; [do 3 right; eexists; split; [|reflexivity];
                       rewrite !elem_of_cons; by auto 10|].
    case_bool_decide; [do 3 right; eexists; split; [|reflexivity];
                       rewrite !elem_of_cons; by auto 10|].
    case_bool_decide; [right; left; by eexists|].
    destruct (truthy (photo msg));
      [do 3 right; eexists; split; [|reflexivity];
       rewrite !elem_of_cons; by auto 10|].
    destruct (truthy (file msg) && negb (truthy (media_type msg)));
      [right; right; left; by eexists|by left].
  - intros e He. unfold format_entry. rewrite He.
    change ("sticker:" +:+ e) with
      (String "s" (String "t" (String "i" (String "c" (String "k"
         (String "e" (String "r" (String ":" e)))))))).
    cbn [String.prefix drop_str]. repeat (destruct (ascii_dec _ _); [|done]).
    rewrite prefix_nil. subst entry body first_line. cbn beta.
    destruct (extract_text msg); cbn [app join];
      by rewrite !string_app_assoc.
  - intros f Hf. unfold format_entry. rewrite Hf.
    change ("document:" +:+ f) with
      (String "d" (String "o" (String "c" (String "u" (String "m"
         (String "e" (String "n" (String "t" (String ":" f))))))))).
    cbn [String.prefix drop_str].
    destruct (ascii_dec "s" "d"); [done|].
    repeat (destruct (ascii_dec _ _); [|done]).
    rewrite prefix_nil. subst entry body first_line. cbn beta.
    destruct (extract_text msg); cbn [app join];
      by rewrite !string_app_assoc.
  - intros tag Htag Hm. unfold format_entry. rewrite Hm.
    subst entry body first_line. cbn beta.
    rewrite !elem_of_cons in Htag.
    destruct Htag as [->|[->|[->|[->|[->|Hnil]]]]];
      [..|by apply elem_of_nil in Hnil];
      destruct (extract_text msg); cbn; by rewrite !string_app_assoc.
  - intros Hm. unfold format_entry. rewrite Hm.
    subst first_line. destruct (extract_text msg); cbn [app join];
      by rewrite !string_app_assoc.
Qed.

End importer_coverage.

(** * Runs of the checker at the threshold *)

Section checker_coverage_runs.
Import Checker CheckerSpec CheckerScenario.


End checker_coverage_runs.

(** * Runs of the importer on hand-made states *)

Section importer_coverage_runs.
Import Importer ImporterSpec ImporterTerms ImporterScenario.

(** In the test configuration the campaign has no list of its own, so the
    global list decides: user 999 is tagged. *)
Lemma gm_tag_follows_configuration_witness :
  let pair := TopicPair "TestCampaign" (Some [100]) None in
  let msg := post (Some 2) 100 "GM narrates" "2025-06-15T10:05:00" "user999" in
  let pairs := default [] (topic_pairs cfg) in
  (pairs !! 0%nat = Some pair
   ∧ (∀ j p, (0 < j)%nat → pairs !! j = Some p → name p ≠ name pair)
   ∧ from_id msg = Some ("user" +:+ str 999))
  ∧ (is_gm_sender (default ∅ (build_gm_map cfg !! name pair)) msg = true
     ↔ 999 ∈ gm_ids_of cfg pair).
Proof.
  intros pair msg pairs.
  assert (pairs !! 0%nat = Some pair) as H1 by reflexivity.
  assert (∀ j p, (0 < j)%nat → pairs !! j = Some p → name p ≠ name pair) as H2.
  { intros [|j] p Hj Hp; [lia|]. by destruct j. }
  assert (from_id msg = Some ("user" +:+ str 999)) as H3
    by (vm_compute; reflexivity).
  exact (conj (conj H1 (conj H2 H3))
              (gm_tag_follows_configuration cfg 0 pair 999 msg H1 H2 H3)).
Defined.

(** A June file that holds notes before the first import still starts with
    them afterwards. *)
Lemma transcripts_only_grow_witness :
  let files : fs := {["TestCampaign" := {["2025-06.md" := "earlier notes"]}]} in
  ("2025-06.md" ≠ tracker
   ∧ file_at files "TestCampaign" "2025-06.md" = Some "earlier notes")
  ∧ ∃ suffix,
      file_at (import_messages cfg exported false files).1
              "TestCampaign" "2025-06.md"
      = Some ("earlier notes" +:+ suffix).
Proof.
  intros files.
  assert ("2025-06.md" ≠ tracker) as H1 by discriminate.
  assert (file_at files "TestCampaign" "2025-06.md" = Some "earlier notes")
    as H2 by (vm_compute; reflexivity).
  exact (conj (conj H1 H2)
              (transcripts_only_grow cfg exported files "TestCampaign"
                 "2025-06.md" "earlier notes" H1 H2)).
Defined.

(** A campaign name with a colon and spaces. *)
Lemma sanitize_dirname_alphabet_witness :
  let name := "Iron Gods: Book 1" in
  all_chars is_ascii name = true
  ∧ (all_chars dir_char (sanitize_dirname name) = true
     ∧ all_chars (λ c, plain c && negb (Ascii.eqb c "/")
                       && negb (Ascii.eqb c "."))
                 (sanitize_dirname name) = true
     ∧ sanitize_dirname (sanitize_dirname name) = sanitize_dirname name
     ∧ (all_chars dir_char name = true → sanitize_dirname name = name))
  ∧ sanitize_dirname name = "Iron_Gods_Book_1".
Proof.
  intros name.
  assert (all_chars is_ascii name = true) as H1 by reflexivity.
  exact (conj H1 (conj (sanitize_dirname_alphabet name H1) eq_refl)).
Defined.

(** The ids 1 and 2 are read back as saved. *)
Lemma tracker_round_trip_witness :
  let ids : gset string := {["1"; "2"]} in
  (ids ≠ ∅ ∧ ∀ x, x ∈ ids → clean x)
  ∧ get_imported_ids (save_imported_ids ∅ "TestCampaign" ids) "TestCampaign"
    = ids.
Proof.
  intros ids.
  assert (ids ≠ ∅) as H1.
  { apply (non_empty_inhabited_L "1"), elem_of_union. left.
    by apply elem_of_singleton. }
  assert (∀ x, x ∈ ids → clean x) as H2.
  { intros x [->%elem_of_singleton| ->%elem_of_singleton]%elem_of_union;
      by vm_compute. }
  exact (conj (conj H1 H2)
              (proj1 (tracker_round_trip ∅ "TestCampaign" ids) H1 H2)).
Defined.

End importer_coverage_runs.
